(** * Huffman file compressor: a shallow embedding of [huffman.cpp]

    The embedding follows the C++ source function by function.

    - A [char] is an 8-bit [ascii]; a [std::string] and the contents of a
      file are [list ascii].  Bit strings are, as in the source, strings
      of the characters ['0'] and ['1'].
    - An [int] is a [Z] kept in the 32-bit two's complement range
      ([int_wrap]).
    - A [Node*] is a [NodePtr]: either [nullptr] or a node with its
      character, its weight and its two child pointers.
    - [std::unordered_map] iteration order and the tie order of
      [std::priority_queue] belong to the standard library, not to the
      program; they are interfaces here ([UnorderedMapOrder],
      [PriorityQueue]) with the guarantees of the C++ standard as laws;
      [list_queue], [insertion_order] and [latest_first] implement
      them, so that the program can be run.
    - A call either returns after writing its output ([Done]), prints
      one of the error messages and returns without output ([Failed]),
      or does not return normally ([Crash]: null pointer dereference or
      uncaught exception). *)

From Stdlib Require Import List ZArith Lia Ascii Bool Permutation Arith.
From Stdlib Require String.
Import String.StringSyntax.
Bind Scope string_scope with String.string.
Import ListNotations.

Local Open Scope Z_scope.
Local Open Scope char_scope.

(** ** Machine integers and characters *)

Definition int_wrap (z : Z) : Z := (z + 2 ^ 31) mod 2 ^ 32 - 2 ^ 31.

Definition int_add (a b : Z) : Z := int_wrap (a + b).

(** ['\n'] and ['\0'] *)
Definition newline : ascii := "010".
Definition nul : ascii := "000".

(** ** class Node *)

Inductive NodePtr : Type :=
| nullptr
| Node (ch : ascii) (freq : Z) (left right : NodePtr).

(** [new Node(c, f)] *)
Definition new_Node (c : ascii) (f : Z) : NodePtr := Node c f nullptr nullptr.

(** [node->freq]; the program reads it only through non-null pointers. *)
Definition freq_of (n : NodePtr) : Z :=
  match n with
  | nullptr => 0
  | Node _ f _ _ => f
  end.

(** [struct Compare]: [a->freq > b->freq]. *)
Definition Compare (a b : NodePtr) : bool := freq_of a >? freq_of b.

(** ** The standard containers, as interfaces *)

(** [for (auto& pair : freqMap)]: the order in which an
    [unordered_map] hands out its entries.  The argument lists the
    entries in the order in which their keys were first inserted. *)
Class UnorderedMapOrder : Type := {
  um_iterate : list (ascii * Z) -> list (ascii * Z);
  um_iterate_perm : forall m, Permutation (um_iterate m) m
}.

(** [priority_queue<Node*, vector<Node*>, Compare>].  [pq_elems] is the
    content of the underlying vector; [pq_top] and [pq_pop] are called
    by the program on non-empty queues only. *)
Class PriorityQueue : Type := {
  pq : Type;
  pq_empty : pq;
  pq_push : NodePtr -> pq -> pq;
  pq_top : pq -> NodePtr;
  pq_pop : pq -> pq;
  pq_size : pq -> nat;
  pq_elems : pq -> list NodePtr;
  pq_elems_empty : pq_elems pq_empty = [];
  pq_elems_push : forall x q,
      Permutation (pq_elems (pq_push x q)) (x :: pq_elems q);
  pq_elems_pop : forall q,
      pq_elems q <> [] ->
      Permutation (pq_elems q) (pq_top q :: pq_elems (pq_pop q));
  pq_size_elems : forall q, pq_size q = length (pq_elems q);
  pq_top_first : forall q,
      Forall (fun n => Compare (pq_top q) n = false) (pq_elems q)
}.

(** ** Maps keyed by [char] *)

Section CharMap.
Context {V : Type}.

Fixpoint map_find (k : ascii) (m : list (ascii * V)) : option V :=
  match m with
  | [] => None
  | (k', v) :: m' => if (k =? k') then Some v else map_find k m'
  end.

(** [m[k] = v]: overwrite the entry of [k], or add one. *)
Fixpoint map_set (k : ascii) (v : V) (m : list (ascii * V)) : list (ascii * V) :=
  match m with
  | [] => [(k, v)]
  | (k', v') :: m' =>
      if (k =? k') then (k', v) :: m' else (k', v') :: map_set k v m'
  end.

(** [m[k]] as an rvalue: the default value when [k] is absent. *)
Definition map_at (d : V) (k : ascii) (m : list (ascii * V)) : V :=
  match map_find k m with
  | Some v => v
  | None => d
  end.
(** A run of assignments, as [buildCode] makes them. *)
Definition assign_all (entries : list (ascii * V)) m : list (ascii * V) :=
  fold_left (fun acc p => map_set (fst p) (snd p) acc) entries m.
End CharMap.

(** ** Results of a call *)

Inductive error : Type :=
| ErrInputEmpty     (* "Error: Input file is empty or unreadable." *)
| ErrTreeRead       (* "Error: Failed to read Huffman tree from file." *)
| ErrUnexpectedEof. (* "Error: Unexpected end of file or read error after tree." *)

Inductive outcome (A : Type) : Type :=
| Done (a : A)
| Failed (e : error)
| Crash.

Arguments Done {A} a.
Arguments Failed {A} e.
Arguments Crash {A}.

(** ** class HuffmanCoding: the private members *)

Record HuffmanCoding : Type := {
  root : NodePtr;
  huffmanCode : list (ascii * list ascii);
  treeNodes : Z;
  maxDepth : Z
}.

(** The constructor: [root(nullptr)], an empty map, both counters 0. *)
Definition HuffmanCoding_new : HuffmanCoding :=
  {| root := nullptr; huffmanCode := []; treeNodes := 0; maxDepth := 0 |}.

Definition set_root (r : NodePtr) (h : HuffmanCoding) : HuffmanCoding :=
  {| root := r; huffmanCode := huffmanCode h;
     treeNodes := treeNodes h; maxDepth := maxDepth h |}.

(** The first statements of [buildCode] on a non-null node:
    [treeNodes++; if (depth > maxDepth) maxDepth = depth;]. *)
Definition visit (depth : Z) (h : HuffmanCoding) : HuffmanCoding :=
  {| root := root h; huffmanCode := huffmanCode h;
     treeNodes := int_add (treeNodes h) 1;
     maxDepth := if depth >? maxDepth h then depth else maxDepth h |}.

(** [huffmanCode[c] = str] *)
Definition set_code (c : ascii) (str : list ascii) (h : HuffmanCoding) : HuffmanCoding :=
  {| root := root h; huffmanCode := map_set c str (huffmanCode h);
     treeNodes := treeNodes h; maxDepth := maxDepth h |}.

Fixpoint buildCode (node : NodePtr) (str : list ascii) (depth : Z)
         (h : HuffmanCoding) : HuffmanCoding :=
  match node with
  | nullptr => h
  | Node c _ l r =>
      let h1 := visit depth h in
      let h2 := match l, r with
                | nullptr, nullptr => set_code c str h1
                | _, _ => h1
                end in
      let h3 := buildCode l (str ++ ["0"]) (int_add depth 1) h2 in
      buildCode r (str ++ ["1"]) (int_add depth 1) h3
  end.

(** [writeTree]: the characters sent to [out]. *)
Fixpoint writeTree (node : NodePtr) : list ascii :=
  match node with
  | nullptr => []
  | Node c _ nullptr nullptr => ["1"; c]
  | Node _ _ l r => "0" :: writeTree l ++ writeTree r
  end.

(** ** Input streams *)

Record ifstream : Type := {
  buf : list ascii;     (* the characters not yet read *)
  failbit : bool
}.

Definition open (file : list ascii) : ifstream :=
  {| buf := file; failbit := false |}.

(** [in.get(c)]: the character read, if any, and the stream after. *)
Definition get (s : ifstream) : option ascii * ifstream :=
  if failbit s then (None, s)
  else match buf s with
       | [] => (None, {| buf := []; failbit := true |})
       | c :: rest => (Some c, {| buf := rest; failbit := false |})
       end.

(** [in.peek()]: [None] is [EOF]. *)
Definition peek (s : ifstream) : option ascii :=
  if failbit s then None else hd_error (buf s).

(** [readTree].  Every call that recurses has consumed a character, so
    the recursion is bounded by the number of unread characters. *)
Fixpoint readTree_fuel (fuel : nat) (s : ifstream) : NodePtr * ifstream :=
  match fuel with
  | O => (nullptr, s)
  | S f =>
      match get s with
      | (None, s1) => (nullptr, s1)
      | (Some bit, s1) =>
          if (bit =? "1") then
            match get s1 with
            | (None, s2) => (nullptr, s2)
            | (Some c, s2) => (new_Node c 0, s2)
            end
          else
            let (l, s2) := readTree_fuel f s1 in
            let (r, s3) := readTree_fuel f s2 in
            (Node nul 0 l r, s3)
      end
  end.

Definition readTree (s : ifstream) : NodePtr * ifstream :=
  readTree_fuel (S (length (buf s))) s.

(** ** std::bitset<8> *)

(** [bitset<8> b(str)]: the value of a string of at most eight ['0'] and
    ['1'] characters, most significant first; any other character
    throws [std::invalid_argument] ([None]). *)
Fixpoint bitset_of_string_from (acc : N) (str : list ascii) : option N :=
  match str with
  | [] => Some acc
  | c :: rest =>
      if (c =? "0") then bitset_of_string_from (2 * acc)%N rest
      else if (c =? "1") then bitset_of_string_from (2 * acc + 1)%N rest
      else None
  end.

Definition bitset_of_string (str : list ascii) : option N :=
  bitset_of_string_from 0%N str.

Definition bit_char (b : bool) : ascii := if b then "1" else "0".

(** [bitset<8>(byte).to_string()] *)
Definition bitset_to_string (byte : ascii) : list ascii :=
  let 'Ascii b0 b1 b2 b3 b4 b5 b6 b7 := byte in
  map bit_char [b7; b6; b5; b4; b3; b2; b1; b0].

(** ** HuffmanCoding::compress *)

(** [while (in.get(ch)) freqMap[ch]++;] *)
Definition count_char (freqMap : list (ascii * Z)) (c : ascii) : list (ascii * Z) :=
  map_set c (int_add (map_at 0 c freqMap) 1) freqMap.

Definition count_freq (input : list ascii) : list (ascii * Z) :=
  fold_left count_char input [].

(** [encoded += huffmanCode[ch]] for every character of the input. *)
Fixpoint encode (table : list (ascii * list ascii)) (input : list ascii) : list ascii :=
  match input with
  | [] => []
  | c :: rest => map_at [] c table ++ encode table rest
  end.

(** [int extraBits = (8 - (encoded.size() % 8)) % 8;] *)
Definition extra_bits (encoded : list ascii) : Z :=
  (8 - Z.of_nat (length encoded) mod 8) mod 8.

(** [if (extraBits > 0) encoded += string(extraBits, '0');] *)
Definition pad (encoded : list ascii) : list ascii :=
  let extraBits := extra_bits encoded in
  if extraBits >? 0 then encoded ++ repeat "0" (Z.to_nat extraBits) else encoded.

(** The loop [for (i = 0; i < encoded.size(); i += 8)]: one output
    character per [substr(i, 8)]. *)
Fixpoint pack_fuel (fuel : nat) (encoded : list ascii) : option (list ascii) :=
  match fuel with
  | O => Some []
  | S f =>
      match encoded with
      | [] => Some []
      | _ =>
          match bitset_of_string (firstn 8 encoded) with
          | None => None
          | Some v =>
              match pack_fuel f (skipn 8 encoded) with
              | None => None
              | Some out => Some (ascii_of_N v :: out)
              end
          end
      end
  end.

Definition pack (encoded : list ascii) : option (list ascii) :=
  pack_fuel (length encoded) encoded.

Section Compress.
Context {UM : UnorderedMapOrder} {PQ : PriorityQueue}.

(** [for (auto& pair : freqMap) pq.push(new Node(pair.first, pair.second));] *)
Definition fill_queue (freqMap : list (ascii * Z)) : pq :=
  fold_left (fun q pair => pq_push (new_Node (fst pair) (snd pair)) q)
            (um_iterate freqMap) pq_empty.

(** The loop [while (pq.size() > 1)]; each round makes the queue one
    shorter, so [pq_size q] rounds are enough. *)
Fixpoint merge_fuel (fuel : nat) (q : pq) : pq :=
  match fuel with
  | O => q
  | S f =>
      if (1 <? pq_size q)%nat then
        let l := pq_top q in
        let q1 := pq_pop q in
        let r := pq_top q1 in
        let q2 := pq_pop q1 in
        let merged := Node nul (int_add (freq_of l) (freq_of r)) l r in
        merge_fuel f (pq_push merged q2)
      else q
  end.

Definition merge_all (q : pq) : pq := merge_fuel (pq_size q) q.

(** [root = pq.top();] after the two loops. *)
Definition build_tree (freqMap : list (ascii * Z)) : NodePtr :=
  pq_top (merge_all (fill_queue freqMap)).

(** The object after [buildCode(root, "")]. *)
Definition compress_object (input : list ascii) : HuffmanCoding :=
  let tree := build_tree (count_freq input) in
  buildCode tree [] 0 (set_root tree HuffmanCoding_new).

(** The whole of [compress]: the contents of the output file. *)
Definition compress (input : list ascii) : outcome (list ascii) :=
  match count_freq input with
  | [] => Failed ErrInputEmpty
  | _ =>
      let h := compress_object input in
      let encoded := encode (huffmanCode h) input in
      let extraBits := extra_bits encoded in
      match pack (pad encoded) with
      | None => Crash
      | Some payload =>
          Done (writeTree (root h) ++ [newline]
                  ++ [ascii_of_N (Z.to_N extraBits)] ++ payload)
      end
  end.
End Compress.

(** ** compress on an object that was used before *)

Section Repeated.
Context {UM : UnorderedMapOrder} {PQ : PriorityQueue}.

(** [compress] called on an object in the state [h0]: the members
    [huffmanCode], [treeNodes] and [maxDepth] are not reset, [root] is
    overwritten.  The contents of the output file, and the object
    after the call. *)
Definition compress_on (h0 : HuffmanCoding) (input : list ascii)
  : outcome (list ascii) * HuffmanCoding :=
  match count_freq input with
  | [] => (Failed ErrInputEmpty, h0)
  | _ =>
      let tree := build_tree (count_freq input) in
      let h := buildCode tree [] 0 (set_root tree h0) in
      let encoded := encode (huffmanCode h) input in
      let extraBits := extra_bits encoded in
      match pack (pad encoded) with
      | None => (Crash, h)
      | Some payload =>
          (Done (writeTree (root h) ++ [newline]
                   ++ [ascii_of_N (Z.to_N extraBits)] ++ payload), h)
      end
  end.

(** One round of the loop [while (pq.size() > 1)]: the queue after the
    two [top]/[pop] pairs and the [push] of the merged node. *)
Definition merge_round (q : pq) : pq :=
  let l := pq_top q in
  let q1 := pq_pop q in
  let r := pq_top q1 in
  let q2 := pq_pop q1 in
  pq_push (Node nul (int_add (freq_of l) (freq_of r)) l r) q2.

(** [lowest_first n q q']: started on [q], the loop makes [n] rounds
    and stops on [q'], and in every round the two nodes it takes have
    the lowest weights of the queue: the first is no heavier than the
    second, the second no heavier than any node left. *)
Inductive lowest_first : nat -> pq -> pq -> Prop :=
| lowest_first_stop : forall q,
    (pq_size q <= 1)%nat -> lowest_first 0 q q
| lowest_first_round : forall n q q',
    (1 < pq_size q)%nat ->
    freq_of (pq_top q) <= freq_of (pq_top (pq_pop q)) ->
    Forall (fun x => freq_of (pq_top (pq_pop q)) <= freq_of x)
           (pq_elems (pq_pop (pq_pop q))) ->
    lowest_first n (merge_round q) q' ->
    lowest_first (S n) q q'.
End Repeated.

(** ** HuffmanCoding::decompress *)

(** [if (next == '\n') in.get();] with [next = in.peek()]. *)
Definition skip_newline (s : ifstream) : ifstream :=
  match peek s with
  | Some c => if (c =? newline) then snd (get s) else s
  | None => s
  end.

(** [while (in.get(byte)) bitString += bitset<8>(byte).to_string();] *)
Definition read_bits (s : ifstream) : list ascii :=
  if failbit s then [] else flat_map bitset_to_string (buf s).

(** [if (extraBits > 0 && extraBits <= 8 && bitString.size() >= extraBits)
      bitString = bitString.substr(0, bitString.size() - extraBits);] *)
Definition drop_padding (extraBits : Z) (bitString : list ascii) : list ascii :=
  if ((extraBits >? 0) && (extraBits <=? 8)
      && (Z.of_nat (length bitString) >=? extraBits))%Z
  then firstn (length bitString - Z.to_nat extraBits) bitString
  else bitString.

(** [out.put(c)] before the rest of the run. *)
Definition put (c : ascii) (o : outcome (list ascii)) : outcome (list ascii) :=
  match o with
  | Done out => Done (c :: out)
  | other => other
  end.

(** The decoding loop [for (char bit : bitString)].  [current->left]
    and [current->right] through a null [current] do not return. *)
Fixpoint walk (root current : NodePtr) (bitString : list ascii) : outcome (list ascii) :=
  match bitString with
  | [] => Done []
  | bit :: rest =>
      if (bit =? "0") || (bit =? "1") then
        match current with
        | nullptr => Crash
        | Node _ _ l r =>
            match (if (bit =? "0") then l else r) with
            | nullptr => Crash
            | Node c _ nullptr nullptr => put c (walk root root rest)
            | next => walk root next rest
            end
        end
      else walk root current rest
  end.

(** What [decompress] has read when the decoding loop starts. *)
Record header : Type := {
  h_root : NodePtr;
  h_extraBits : Z;
  h_payload : ifstream
}.

Definition read_header (file : list ascii) : outcome header :=
  let (root, s1) := readTree (open file) in
  match root with
  | nullptr => Failed ErrTreeRead
  | _ =>
      let s2 := skip_newline s1 in
      match get s2 with
      | (None, _) => Failed ErrUnexpectedEof
      | (Some e, s3) =>
          Done {| h_root := root;
                  h_extraBits := Z.of_N (N_of_ascii e);
                  h_payload := s3 |}
      end
  end.

(** The whole of [decompress]: the contents of the output file. *)
Definition decompress (file : list ascii) : outcome (list ascii) :=
  match read_header file with
  | Done h =>
      let bitString := drop_padding (h_extraBits h) (read_bits (h_payload h)) in
      walk (h_root h) (h_root h) bitString
  | Failed e => Failed e
  | Crash => Crash
  end.

(** ** An implementation of the priority queue *)

(** A priority queue kept as the vector of its elements: [push] is
    [push_back], [top] is the first element that no other element
    precedes under [Compare], [pop] removes it. *)
Module ListQueue.

Fixpoint select (best : NodePtr) (rest : list NodePtr) : NodePtr * list NodePtr :=
  match rest with
  | [] => (best, [])
  | y :: tl =>
      if Compare best y
      then let (m, r) := select y tl in (m, best :: r)
      else let (m, r) := select best tl in (m, y :: r)
  end.

Definition push (x : NodePtr) (q : list NodePtr) : list NodePtr := q ++ [x].

Definition top (q : list NodePtr) : NodePtr :=
  match q with
  | [] => nullptr
  | x :: r => fst (select x r)
  end.

Definition pop (q : list NodePtr) : list NodePtr :=
  match q with
  | [] => []
  | x :: r => snd (select x r)
  end.

End ListQueue.

(** A file given by its characters. *)
Definition file_of (s : String.string) : list ascii := String.list_ascii_of_string s.

(** ** Shapes of trees *)

(** Every node is a leaf or has two children: the trees [compress]
    builds. *)
Inductive full : NodePtr -> Prop :=
| full_leaf : forall c f, full (Node c f nullptr nullptr)
| full_node : forall c f l r, full l -> full r -> full (Node c f l r).

(** [leaf_at n p c]: following the bits [p] from [n] ('0' left, '1'
    right) ends on a leaf that holds [c]. *)
Inductive leaf_at : NodePtr -> list ascii -> ascii -> Prop :=
| leaf_here : forall c f, leaf_at (Node c f nullptr nullptr) [] c
| leaf_left : forall k f l r p c,
    leaf_at l p c -> leaf_at (Node k f l r) ("0" :: p) c
| leaf_right : forall k f l r p c,
    leaf_at r p c -> leaf_at (Node k f l r) ("1" :: p) c.

(** The characters on the leaves, left to right. *)
Fixpoint leaves (n : NodePtr) : list ascii :=
  match n with
  | nullptr => []
  | Node c _ nullptr nullptr => [c]
  | Node _ _ l r => leaves l ++ leaves r
  end.

(** The assignments [huffmanCode[c] = str] that [buildCode] makes, in
    the order in which it makes them. *)
Fixpoint codes (n : NodePtr) (str : list ascii) : list (ascii * list ascii) :=
  match n with
  | nullptr => []
  | Node c _ nullptr nullptr => [(c, str)]
  | Node _ _ l r => codes l (str ++ ["0"]) ++ codes r (str ++ ["1"])
  end.

(** The tree [readTree] makes of what [writeTree] wrote: weights are
    not stored, and inner nodes get the character ['\0']. *)
Fixpoint reread (n : NodePtr) : NodePtr :=
  match n with
  | nullptr => nullptr
  | Node c _ nullptr nullptr => new_Node c 0
  | Node _ _ l r => Node nul 0 (reread l) (reread r)
  end.

Definition is_leaf (n : NodePtr) : bool :=
  match n with
  | Node _ _ nullptr nullptr => true
  | _ => false
  end.

(** [a] is a prefix of [b]. *)
Fixpoint prefixb (a b : list ascii) : bool :=
  match a, b with
  | [], _ => true
  | x :: a', y :: b' => (x =? y) && prefixb a' b'
  | _ :: _, [] => false
  end.

Definition is_bit (c : ascii) : Prop := c = "0" \/ c = "1".

(** Every character of [input] has a code in [table] that leads, from
    the root of [tree], to a leaf holding it, over at least one bit. *)
Definition decodable (table : list (ascii * list ascii)) (tree : NodePtr)
           (input : list ascii) : Prop :=
  forall c, In c input ->
    leaf_at tree (map_at [] c table) c /\ map_at [] c table <> [].

(** The code table [buildCode] makes of a tree, from the empty map. *)
Definition table_of (tree : NodePtr) : list (ascii * list ascii) :=
  assign_all (codes tree []) [].

(** The leaf pushed for an entry of the frequency map. *)
Definition leaf_of (pair : ascii * Z) : NodePtr := new_Node (fst pair) (snd pair).

(** The number of nodes of a tree. *)
Fixpoint node_count (n : NodePtr) : Z :=
  match n with
  | nullptr => 0
  | Node _ _ l r => 1 + node_count l + node_count r
  end.

(** The number of edges on the longest way down from a node; -1 for
    the null pointer, so that a leaf has height 0. *)
Fixpoint height (n : NodePtr) : Z :=
  match n with
  | nullptr => -1
  | Node _ _ l r => 1 + Z.max (height l) (height r)
  end.

(** The leaves with their weights, left to right. *)
Fixpoint leaf_pairs (n : NodePtr) : list (ascii * Z) :=
  match n with
  | nullptr => []
  | Node c f nullptr nullptr => [(c, f)]
  | Node _ _ l r => leaf_pairs l ++ leaf_pairs r
  end.

(** The weight of every node with children is the sum of the weights
    of its children. *)
Inductive adds_up : NodePtr -> Prop :=
| adds_up_leaf : forall c f, adds_up (Node c f nullptr nullptr)
| adds_up_node : forall c f l r,
    adds_up l -> adds_up r -> f = freq_of l + freq_of r ->
    adds_up (Node c f l r).

(** What the merging loop keeps true of every node in the queue. *)
Definition sound_node (n : NodePtr) : Prop :=
  n <> nullptr /\ adds_up n /\ 0 < freq_of n.

(** The sum of the weights of a list of nodes. *)
Definition total_weight (nodes : list NodePtr) : Z :=
  fold_right (fun n acc => freq_of n + acc) 0 nodes.

(** The sum of the counts of a frequency map. *)
Definition total_count (freqMap : list (ascii * Z)) : Z :=
  fold_right (fun pair acc => snd pair + acc) 0 freqMap.

(** The number of bits that the codes of [table] take for a text with
    the counts of [freqMap]: each count times the length of the code. *)
Definition weighted_length (freqMap : list (ascii * Z))
           (table : list (ascii * list ascii)) : Z :=
  fold_right
    (fun pair acc => snd pair * Z.of_nat (length (map_at [] (fst pair) table)) + acc)
    0 freqMap.

(** The sum of [f] over the characters of a text, and the same sum
    taken key by key: the number of occurrences times [f]. *)
Definition sum_over (f : ascii -> Z) (text : list ascii) : Z :=
  fold_right (fun x acc => f x + acc) 0 text.

Definition sum_counted (f : ascii -> Z) (text keys : list ascii) : Z :=
  fold_right (fun c acc => Z.of_nat (count_occ ascii_dec text c) * f c + acc) 0 keys.

(** ** The specification's own serialisation and tie-break

    These two follow the words of the specification, not the source;
    they serve only to compare what it states with what [writeTree] and
    [Compare] do. *)

(** Section 4.4: the serialised tree is a sequence of bits, "for each
    leaf emit bit 1 followed by the raw 8-bit symbol value; for each
    internal node emit bit 0 and then recurse into left then right
    children". *)
Definition symbol_bits (c : ascii) : list bool :=
  let 'Ascii b0 b1 b2 b3 b4 b5 b6 b7 := c in [b7; b6; b5; b4; b3; b2; b1; b0].

Fixpoint spec_serialize (n : NodePtr) : list bool :=
  match n with
  | nullptr => []
  | Node c _ nullptr nullptr => true :: symbol_bits c
  | Node _ _ l r => false :: spec_serialize l ++ spec_serialize r
  end.

(** Section 4.2, between two leaves: lower weight first; on equal
    weight the numerically smaller byte value first.  [spec_after a b]
    says that [a] is taken after [b]. *)
Definition spec_after (a b : NodePtr) : bool :=
  match a, b with
  | Node ca fa _ _, Node cb fb _ _ =>
      ((fa >? fb)%Z || ((fa =? fb)%Z && (N_of_ascii cb <? N_of_ascii ca)%N))
  | _, _ => false
  end.

(** * Properties *)

(** ** The containers of this file meet their interfaces *)

Module ListQueueFacts.
Import ListQueue.

Lemma select_perm : forall rest best,
    Permutation (best :: rest) (fst (select best rest) :: snd (select best rest)).
Proof.
  induction rest as [|y tl IH]; intros best; simpl.
  - apply Permutation_refl.
  - destruct (Compare best y).
    + specialize (IH y). destruct (select y tl) as [m r]; simpl in *.
      apply Permutation_trans with (best :: m :: r).
      * apply perm_skip. exact IH.
      * apply perm_swap.
    + specialize (IH best). destruct (select best tl) as [m r]; simpl in *.
      apply Permutation_trans with (y :: best :: tl).
      * apply perm_swap.
      * apply Permutation_trans with (y :: m :: r).
        -- apply perm_skip. exact IH.
        -- apply perm_swap.
Qed.

Lemma select_least : forall rest best,
    freq_of (fst (select best rest)) <= freq_of best /\
    Forall (fun n => freq_of (fst (select best rest)) <= freq_of n) rest.
Proof.
  induction rest as [|y tl IH]; intros best; simpl.
  - split; [lia | constructor].
  - unfold Compare. destruct (freq_of best >? freq_of y) eqn:E.
    + apply Z.gtb_lt in E.
      destruct (IH y) as [H1 H2]. destruct (select y tl) as [m r]; simpl in *.
      split; [lia | constructor; [lia | exact H2]].
    + assert (freq_of best <= freq_of y) by (rewrite Z.gtb_ltb in E; apply Z.ltb_ge in E; lia).
      destruct (IH best) as [H1 H2]. destruct (select best tl) as [m r]; simpl in *.
      split; [lia | constructor; [lia | exact H2]].
Qed.

Lemma push_perm : forall x q, Permutation (push x q) (x :: q).
Proof.
  intros x q. unfold push. apply Permutation_sym, Permutation_cons_append.
Qed.

Lemma pop_perm : forall q, q <> [] -> Permutation q (top q :: pop q).
Proof.
  intros [|x r] Hq; [congruence|]. simpl. apply select_perm.
Qed.

Lemma top_first : forall q, Forall (fun n => Compare (top q) n = false) q.
Proof.
  intros [|x r]; [constructor|]. simpl.
  destruct (select_least r x) as [H1 H2].
  assert (E : forall n, freq_of (fst (select x r)) <= freq_of n ->
                        Compare (fst (select x r)) n = false).
  { intros n Hn. unfold Compare. rewrite Z.gtb_ltb. apply Z.ltb_ge. exact Hn. }
  constructor; [apply E; exact H1|].
  eapply Forall_impl; [|exact H2]. exact E.
Qed.

End ListQueueFacts.

#[export] Instance list_queue : PriorityQueue := {|
  pq := list NodePtr;
  pq_empty := [];
  pq_push := ListQueue.push;
  pq_top := ListQueue.top;
  pq_pop := ListQueue.pop;
  pq_size := @length NodePtr;
  pq_elems := fun q => q;
  pq_elems_empty := eq_refl;
  pq_elems_push := ListQueueFacts.push_perm;
  pq_elems_pop := ListQueueFacts.pop_perm;
  pq_size_elems := fun q => eq_refl;
  pq_top_first := ListQueueFacts.top_first
|}.

(** A map that hands out its entries in the order of first insertion. *)
#[export] Instance insertion_order : UnorderedMapOrder := {|
  um_iterate := fun m => m;
  um_iterate_perm := fun m => Permutation_refl m
|}.

(** A map that hands out its entries latest first. *)
Definition latest_first : UnorderedMapOrder := {|
  um_iterate := @rev (ascii * Z);
  um_iterate_perm := fun m => Permutation_sym (Permutation_rev m)
|}.

(** ** Maps *)

Section CharMapFacts.
Context {V : Type}.
Implicit Types (m : list (ascii * V)) (k : ascii) (v : V).

Lemma map_find_set_same : forall m k v, map_find k (map_set k v m) = Some v.
Proof.
  induction m as [|[k' v'] m IH]; intros k v; simpl.
  - now rewrite Ascii.eqb_refl.
  - destruct (k =? k') eqn:E; simpl; rewrite E; auto.
Qed.

Lemma map_find_set_other : forall m k k' v,
    k' <> k -> map_find k' (map_set k v m) = map_find k' m.
Proof.
  induction m as [|[k0 v0] m IH]; intros k k' v Hne; simpl.
  - apply Ascii.eqb_neq in Hne. now rewrite Hne.
  - destruct (k =? k0) eqn:E; simpl.
    + apply Ascii.eqb_eq in E. subst k0.
      apply Ascii.eqb_neq in Hne. now rewrite Hne.
    + destruct (k' =? k0); auto.
Qed.

Lemma map_set_keys : forall m k v,
    map fst (map_set k v m) =
    if in_dec ascii_dec k (map fst m) then map fst m else map fst m ++ [k].
Proof.
  induction m as [|[k' v'] m IH]; intros k v; simpl.
  - reflexivity.
  - destruct (k =? k') eqn:E; simpl.
    + apply Ascii.eqb_eq in E. subst k'.
      destruct (ascii_dec k k); [|congruence].
      reflexivity.
    + apply Ascii.eqb_neq in E. rewrite IH.
      destruct (ascii_dec k' k); [congruence|].
      destruct (in_dec ascii_dec k (map fst m)); reflexivity.
Qed.

Lemma map_set_in : forall m k v k' v',
    In (k', v') (map_set k v m) -> (k' = k /\ v' = v) \/ In (k', v') m.
Proof.
  induction m as [|[k0 v0] m IH]; intros k v k' v' H; simpl in *.
  - destruct H as [H|[]]. inversion H. auto.
  - destruct (k =? k0) eqn:E; simpl in H.
    + apply Ascii.eqb_eq in E. subst k0.
      destruct H as [H|H]; [inversion H; auto | auto].
    + destruct H as [H|H]; [auto|].
      apply IH in H. tauto.
Qed.

Lemma map_find_in : forall m k v, map_find k m = Some v -> In (k, v) m.
Proof.
  induction m as [|[k0 v0] m IH]; intros k v H; simpl in *; [discriminate|].
  destruct (k =? k0) eqn:E.
  - apply Ascii.eqb_eq in E. inversion H. subst. auto.
  - auto.
Qed.

Lemma assign_all_in : forall entries m k v,
    In (k, v) (assign_all entries m) -> In (k, v) entries \/ In (k, v) m.
Proof.
  induction entries as [|[k0 v0] entries IH]; intros m k v H; simpl in *; [auto|].
  apply IH in H. destruct H as [H|H]; [auto|].
  apply map_set_in in H. simpl in H.
  destruct H as [[-> ->]|H]; auto.
Qed.

Lemma assign_all_keep : forall entries m k v,
    ~ In k (map fst entries) -> map_find k m = Some v ->
    map_find k (assign_all entries m) = Some v.
Proof.
  induction entries as [|[k0 v0] entries IH]; intros m k v Hnotin Hm; simpl in *; [auto|].
  apply IH; [tauto|].
  rewrite map_find_set_other; [auto|].
  intros ->. apply Hnotin. auto.
Qed.

Lemma assign_all_find : forall entries m k v,
    NoDup (map fst entries) -> In (k, v) entries ->
    map_find k (assign_all entries m) = Some v.
Proof.
  induction entries as [|[k0 v0] entries IH]; intros m k v Hnd Hin; simpl in *; [tauto|].
  inversion Hnd as [|? ? Hnotin Hnd']; subst.
  destruct Hin as [Hin|Hin].
  - inversion Hin; subst.
    apply assign_all_keep; [exact Hnotin | apply map_find_set_same].
  - apply IH; auto.
Qed.
End CharMapFacts.

(** ** buildCode *)

Lemma buildCode_root : forall node str depth h,
    root (buildCode node str depth h) = root h.
Proof.
  induction node as [|c f l IHl r IHr]; intros str depth h; simpl; [reflexivity|].
  rewrite IHr, IHl. destruct l, r; reflexivity.
Qed.

Lemma codes_inner : forall c f l r str,
    is_leaf (Node c f l r) = false ->
    codes (Node c f l r) str = codes l (str ++ ["0"]) ++ codes r (str ++ ["1"]).
Proof.
  intros c f l r str H. destruct l; [destruct r; [discriminate|]|]; reflexivity.
Qed.

Lemma leaves_inner : forall c f l r,
    is_leaf (Node c f l r) = false ->
    leaves (Node c f l r) = leaves l ++ leaves r.
Proof.
  intros c f l r H. destruct l; [destruct r; [discriminate|]|]; reflexivity.
Qed.

Lemma buildCode_inner : forall c f l r str depth h,
    is_leaf (Node c f l r) = false ->
    buildCode (Node c f l r) str depth h =
    buildCode r (str ++ ["1"]) (int_add depth 1)
              (buildCode l (str ++ ["0"]) (int_add depth 1) (visit depth h)).
Proof.
  intros c f l r str depth h H. destruct l; [destruct r; [discriminate|]|]; reflexivity.
Qed.

Lemma buildCode_table : forall node str depth h,
    huffmanCode (buildCode node str depth h) =
    assign_all (codes node str) (huffmanCode h).
Proof.
  induction node as [|c f l IHl r IHr]; intros str depth h; [reflexivity|].
  destruct (is_leaf (Node c f l r)) eqn:E.
  - destruct l; [|discriminate]. destruct r; [|discriminate]. reflexivity.
  - rewrite buildCode_inner, codes_inner by exact E.
    rewrite IHr, IHl. unfold assign_all. rewrite fold_left_app. reflexivity.
Qed.

Lemma codes_keys : forall node str, map fst (codes node str) = leaves node.
Proof.
  induction node as [|c f l IHl r IHr]; intros str; [reflexivity|].
  destruct (is_leaf (Node c f l r)) eqn:E.
  - destruct l; [|discriminate]. destruct r; [|discriminate]. reflexivity.
  - rewrite codes_inner, leaves_inner by exact E.
    rewrite map_app, IHl, IHr. reflexivity.
Qed.

Lemma codes_leaf_at : forall node str c s,
    In (c, s) (codes node str) ->
    exists p, s = str ++ p /\ leaf_at node p c.
Proof.
  induction node as [|k f l IHl r IHr]; intros str c s H; [destruct H|].
  assert (G : In (c, s) (codes l (str ++ ["0"]) ++ codes r (str ++ ["1"])) ->
              exists p, s = str ++ p /\ leaf_at (Node k f l r) p c).
  { intros Hin. apply in_app_or in Hin. destruct Hin as [Hin|Hin].
    - apply IHl in Hin. destruct Hin as [p [-> Hp]].
      exists ("0" :: p). split; [now rewrite <- app_assoc | now constructor].
    - apply IHr in Hin. destruct Hin as [p [-> Hp]].
      exists ("1" :: p). split; [now rewrite <- app_assoc | now constructor]. }
  destruct l as [|lc lf ll lr].
  - destruct r as [|rc rf rl rr]; [|exact (G H)].
    destruct H as [H|[]]. inversion H; subst.
    exists []. split; [now rewrite app_nil_r | constructor].
  - exact (G H).
Qed.

Lemma leaf_at_bits : forall node p c, leaf_at node p c -> Forall is_bit p.
Proof.
  induction 1; constructor; auto; unfold is_bit; auto.
Qed.

(** Two leaves of one tree: the path of one does not extend the path
    of the other. *)
Lemma leaf_at_prefix : forall node p c,
    leaf_at node p c ->
    forall q c', leaf_at node (p ++ q) c' -> q = [] /\ c' = c.
Proof.
  induction 1 as [c f|k f l r p c H IH|k f l r p c H IH]; intros q c' H'.
  - simpl in H'. inversion H' as [| ? ? ? ? ? ? Hl | ? ? ? ? ? ? Hr]; subst.
    + auto.
    + inversion Hl.
    + inversion Hr.
  - simpl in H'. inversion H'; subst. eauto.
  - simpl in H'. inversion H'; subst. eauto.
Qed.

Lemma prefixb_app : forall a b, prefixb a b = true -> exists q, b = a ++ q.
Proof.
  induction a as [|x a IH]; intros b H; simpl in *.
  - exists b. reflexivity.
  - destruct b as [|y b]; [discriminate|].
    apply andb_true_iff in H. destruct H as [E H].
    apply Ascii.eqb_eq in E. subst y.
    destruct (IH _ H) as [q ->]. exists q. reflexivity.
Qed.

(** ** writeTree and readTree *)

Lemma full_not_null : forall n, full n -> n <> nullptr.
Proof. intros n H. destruct H; discriminate. Qed.

Lemma reread_inner : forall c f l r,
    is_leaf (Node c f l r) = false ->
    reread (Node c f l r) = Node nul 0 (reread l) (reread r).
Proof.
  intros c f l r H. destruct l; [destruct r; [discriminate|]|]; reflexivity.
Qed.

Lemma reread_is_leaf : forall n, is_leaf (reread n) = is_leaf n.
Proof.
  intros [|c f l r]; [reflexivity|].
  destruct l as [|lc lf ll lr]; destruct r as [|rc rf rl rr]; try reflexivity.
  - simpl. destruct rl, rr; reflexivity.
  - simpl. destruct ll, lr; reflexivity.
  - simpl. destruct ll, lr; reflexivity.
Qed.

Lemma reread_full : forall n, full n -> full (reread n).
Proof.
  induction 1 as [c f|c f l r Hl IHl Hr IHr].
  - constructor.
  - rewrite reread_inner by (destruct Hl; reflexivity).
    constructor; auto.
Qed.

Lemma reread_codes : forall n str, codes (reread n) str = codes n str.
Proof.
  induction n as [|c f l IHl r IHr]; intros str; [reflexivity|].
  destruct (is_leaf (Node c f l r)) eqn:E.
  - destruct l; [|discriminate]. destruct r; [|discriminate]. reflexivity.
  - pose proof (reread_is_leaf (Node c f l r)) as E'.
    rewrite E, reread_inner in E' by exact E.
    rewrite reread_inner, !codes_inner by assumption.
    rewrite IHl, IHr. reflexivity.
Qed.

Lemma readTree_fuel_writeTree : forall n,
    full n ->
    forall rest fuel,
      (length (writeTree n ++ rest) < fuel)%nat ->
      readTree_fuel fuel (open (writeTree n ++ rest)) = (reread n, open rest).
Proof.
  induction 1 as [c f|c f l r Hl IHl Hr IHr]; intros rest fuel Hfuel.
  - simpl in *. destruct fuel as [|fuel]; [lia|]. reflexivity.
  - assert (Ew : writeTree (Node c f l r) = "0" :: writeTree l ++ writeTree r).
    { destruct Hl; reflexivity. }
    assert (Er : reread (Node c f l r) = Node nul 0 (reread l) (reread r)).
    { destruct Hl; reflexivity. }
    rewrite Ew in *. rewrite Er. clear Ew Er.
    destruct fuel as [|fuel]; [simpl in Hfuel; lia|].
    simpl in Hfuel. rewrite <- app_assoc in Hfuel.
    cbn [readTree_fuel app]. unfold get, open. cbn [failbit buf].
    change ("0" =? "1") with false. cbv iota.
    rewrite <- app_assoc.
    fold (open (writeTree l ++ writeTree r ++ rest)).
    rewrite IHl by lia.
    rewrite length_app in Hfuel.
    rewrite IHr by lia.
    reflexivity.
Qed.

Lemma readTree_writeTree : forall n rest,
    full n -> readTree (open (writeTree n ++ rest)) = (reread n, open rest).
Proof.
  intros n rest H. unfold readTree.
  apply readTree_fuel_writeTree; [exact H | simpl; lia].
Qed.

Lemma get_shorter : forall s c s',
    get s = (Some c, s') ->
    failbit s' = false /\ S (length (buf s')) = length (buf s).
Proof.
  intros [b f] c s'. unfold get. simpl.
  destruct f; [discriminate|]. destruct b as [|x rest]; [discriminate|].
  intros H. inversion H; subst. simpl. auto.
Qed.

Lemma readTree_fuel_shorter : forall fuel s,
    (length (buf (snd (readTree_fuel fuel s))) <= length (buf s))%nat.
Proof.
  induction fuel as [|fuel IH]; intros s; simpl; [lia|].
  destruct (get s) as [[bit|] s1] eqn:E1.
  - apply get_shorter in E1. destruct E1 as [_ L1].
    destruct (bit =? "1").
    + destruct (get s1) as [[c|] s2] eqn:E2; simpl.
      * apply get_shorter in E2. lia.
      * unfold get in E2. destruct (failbit s1); [inversion E2; subst; lia|].
        destruct (buf s1); inversion E2; subst; simpl; lia.
    + pose proof (IH s1) as H1.
      destruct (readTree_fuel fuel s1) as [l s2]. simpl in H1.
      pose proof (IH s2) as H2.
      destruct (readTree_fuel fuel s2) as [r s3]. simpl in *. lia.
  - simpl. unfold get in E1. destruct (failbit s); [inversion E1; subst; lia|].
    destruct (buf s); inversion E1; subst; simpl; lia.
Qed.

(** The fuel of [readTree] is never used up: any amount above the
    number of unread characters gives the same tree and the same
    stream. *)
Lemma readTree_fuel_enough : forall f1 f2 s,
    (length (buf s) < f1)%nat -> (length (buf s) < f2)%nat ->
    readTree_fuel f1 s = readTree_fuel f2 s.
Proof.
  induction f1 as [|f1 IH]; intros f2 s H1 H2; [lia|].
  destruct f2 as [|f2]; [lia|]. simpl.
  destruct (get s) as [[bit|] s1] eqn:E1; [|reflexivity].
  apply get_shorter in E1. destruct E1 as [_ L1].
  destruct (bit =? "1"); [reflexivity|].
  rewrite (IH f2 s1) by lia.
  pose proof (readTree_fuel_shorter f2 s1) as L2.
  destruct (readTree_fuel f2 s1) as [l s2]. simpl in L2.
  rewrite (IH f2 s2) by lia. reflexivity.
Qed.

(** When the file ends inside the tree, [decompress] stops on one of
    its two error messages. *)
Lemma decompress_tree_cut_short : forall file,
    failbit (snd (readTree (open file))) = true ->
    decompress file = Failed ErrTreeRead \/ decompress file = Failed ErrUnexpectedEof.
Proof.
  intros file H. unfold decompress, read_header.
  destruct (readTree (open file)) as [tree s1]. simpl in H.
  destruct tree as [|c f l r]; [left; reflexivity|]. right.
  unfold skip_newline, peek. rewrite H. unfold get. rewrite H. reflexivity.
Qed.

(** ** The decoding loop *)

Lemma leaf_at_inner : forall n p c,
    leaf_at n p c -> p <> [] -> is_leaf n = false.
Proof.
  intros n p c H Hp. destruct H as [c f|k f l r p c H|k f l r p c H].
  - congruence.
  - destruct H; reflexivity.
  - destruct H; destruct l; reflexivity.
Qed.

Lemma walk_step : forall root k f l r bit rest,
    is_bit bit ->
    let next := if (bit =? "0") then l else r in
    walk root (Node k f l r) (bit :: rest) =
    match next with
    | nullptr => Crash
    | Node c _ _ _ =>
        if is_leaf next then put c (walk root root rest) else walk root next rest
    end.
Proof.
  intros root k f l r bit rest [-> | ->]; cbn [walk];
    [change (("0" =? "0") || ("0" =? "1")) with true
    |change (("1" =? "0") || ("1" =? "1")) with true]; cbv iota.
  - change ("0" =? "0") with true. cbv iota zeta.
    destruct l as [|c0 f0 [|] [|]]; reflexivity.
  - change ("1" =? "0") with false. cbv iota zeta.
    destruct r as [|c0 f0 [|] [|]]; reflexivity.
Qed.

(** A whole code word from an inner node emits its character and
    returns to the root. *)
Lemma walk_code : forall root cur p c,
    leaf_at cur p c -> p <> [] ->
    forall rest, walk root cur (p ++ rest) = put c (walk root root rest).
Proof.
  intros root cur p c H.
  induction H as [c f|k f l r p c H IH|k f l r p c H IH]; intros Hp rest.
  - congruence.
  - change (("0" :: p) ++ rest) with ("0" :: (p ++ rest)).
    rewrite walk_step by (left; reflexivity).
    change ("0" =? "0") with true. cbv iota zeta.
    destruct p as [|b p].
    + inversion H; subst. reflexivity.
    + assert (E : is_leaf l = false) by (eapply leaf_at_inner; [exact H | discriminate]).
      destruct l as [|lc lf ll lr]; [inversion H|].
      rewrite E. apply IH. discriminate.
  - change (("1" :: p) ++ rest) with ("1" :: (p ++ rest)).
    rewrite walk_step by (right; reflexivity).
    change ("1" =? "0") with false. cbv iota zeta.
    destruct p as [|b p].
    + inversion H; subst. reflexivity.
    + assert (E : is_leaf r = false) by (eapply leaf_at_inner; [exact H | discriminate]).
      destruct r as [|rc rf rl rr]; [inversion H|].
      rewrite E. apply IH. discriminate.
Qed.

(** A code word cut short emits nothing. *)
Lemma walk_cut : forall root p cur q c,
    leaf_at cur (p ++ q) c -> q <> [] -> walk root cur p = Done [].
Proof.
  intros root p. induction p as [|b p IH]; intros cur q c H Hq; [reflexivity|].
  assert (Hpq : p ++ q <> []) by (destruct p; [exact Hq | discriminate]).
  simpl in H. inversion H as [|k f l r p' c' Hl|k f l r p' c' Hr]; subst.
  - rewrite walk_step by (left; reflexivity).
    change ("0" =? "0") with true. cbv iota zeta.
    pose proof (leaf_at_inner _ _ _ Hl Hpq) as E.
    destruct l as [|lc lf ll lr]; [inversion Hl|].
    rewrite E. eapply IH; eauto.
  - rewrite walk_step by (right; reflexivity).
    change ("1" =? "0") with false. cbv iota zeta.
    pose proof (leaf_at_inner _ _ _ Hr Hpq) as E.
    destruct r as [|rc rf rl rr]; [inversion Hr|].
    rewrite E. eapply IH; eauto.
Qed.

Lemma put_not_failed : forall c o e, o <> Failed e -> put c o <> Failed e.
Proof. intros c [out|e'|] e H; simpl; congruence. Qed.

(** The decoding loop has no error exit. *)
Lemma walk_not_failed : forall root bitString cur e,
    walk root cur bitString <> Failed e.
Proof.
  intros root bitString.
  induction bitString as [|bit rest IH]; intros cur e; simpl; [discriminate|].
  destruct ((bit =? "0") || (bit =? "1")); [|apply IH].
  destruct cur as [|k f l r]; [discriminate|].
  destruct (if bit =? "0" then l else r) as [|c0 f0 [|] [|]];
    try discriminate; try apply IH; apply put_not_failed, IH.
Qed.

Section Decoding.
Variable table : list (ascii * list ascii).
Variable tree : NodePtr.

Lemma walk_encode : forall input,
    decodable table tree input -> walk tree tree (encode table input) = Done input.
Proof.
  induction input as [|c input IH]; intros H; [reflexivity|].
  destruct (H c (or_introl eq_refl)) as [Hleaf Hne].
  simpl. rewrite (walk_code tree tree _ c Hleaf Hne).
  rewrite IH; [reflexivity|].
  intros c' Hc'. apply H. now right.
Qed.

Lemma encode_length : forall input,
    decodable table tree input -> (length input <= length (encode table input))%nat.
Proof.
  induction input as [|c input IH]; intros H; simpl; [lia|].
  destruct (H c (or_introl eq_refl)) as [_ Hne].
  rewrite length_app.
  assert (length input <= length (encode table input))%nat
    by (apply IH; intros c' Hc'; apply H; now right).
  destruct (map_at [] c table); [congruence | simpl; lia].
Qed.

(** Decoding the first [m] bits of an encoding, when some are missing,
    gives the first characters of the input and not all of them. *)
Lemma walk_encode_firstn : forall input m,
    decodable table tree input ->
    (m < length (encode table input))%nat ->
    exists out c rest,
      walk tree tree (firstn m (encode table input)) = Done out /\
      input = out ++ c :: rest.
Proof.
  induction input as [|c input IH]; intros m H Hm; [simpl in Hm; lia|].
  destruct (H c (or_introl eq_refl)) as [Hleaf Hne].
  assert (H' : decodable table tree input) by (intros c' Hc'; apply H; now right).
  simpl in *. rewrite length_app in Hm. rewrite firstn_app.
  destruct (Nat.lt_ge_cases m (length (map_at [] c table))) as [Hlt|Hge].
  - replace (m - length (map_at [] c table))%nat with 0%nat by lia.
    rewrite firstn_O, app_nil_r.
    exists [], c, input. split; [|reflexivity].
    apply walk_cut with (q := skipn m (map_at [] c table)) (c := c).
    + rewrite firstn_skipn. exact Hleaf.
    + intros E. apply (f_equal (@length ascii)) in E.
      rewrite length_skipn in E. simpl in E. lia.
  - rewrite firstn_all2 by lia.
    rewrite (walk_code tree tree _ c Hleaf Hne).
    destruct (IH (m - length (map_at [] c table))%nat H') as [out [c' [rest [Hw Hin]]]]; [lia|].
    rewrite Hw. exists (c :: out), c', rest. split; [reflexivity|].
    simpl. now rewrite <- Hin.
Qed.
End Decoding.

(** ** Packing bits into bytes *)

Ltac split_bits H :=
  repeat match type of H with
         | Forall is_bit (_ :: _) =>
             let Hb := fresh "Hb" in
             let H' := fresh "H" in
             inversion H as [|? ? Hb H']; subst; clear H;
             destruct Hb as [-> | ->]; rename H' into H
         end.

Lemma bitset_chunk : forall s,
    length s = 8%nat -> Forall is_bit s ->
    exists v, bitset_of_string s = Some v /\ bitset_to_string (ascii_of_N v) = s.
Proof.
  intros s Hlen Hbits.
  do 8 (destruct s as [|? s]; [discriminate Hlen|]).
  destruct s; [|discriminate Hlen]. clear Hlen.
  split_bits Hbits; eexists; split; reflexivity.
Qed.

Lemma pack_fuel_step : forall f s,
    s <> [] ->
    pack_fuel (S f) s =
    match bitset_of_string (firstn 8 s) with
    | None => None
    | Some v =>
        match pack_fuel f (skipn 8 s) with
        | None => None
        | Some out => Some (ascii_of_N v :: out)
        end
    end.
Proof. intros f [|a s] H; [congruence | reflexivity]. Qed.

Lemma pack_fuel_chunks : forall k s fuel,
    length s = (8 * k)%nat -> Forall is_bit s -> (k <= fuel)%nat ->
    exists payload,
      pack_fuel fuel s = Some payload /\
      flat_map bitset_to_string payload = s /\
      length payload = k.
Proof.
  induction k as [|k IH]; intros s fuel Hlen Hbits Hfuel.
  - destruct s; [|discriminate Hlen].
    exists []. destruct fuel; auto.
  - destruct fuel as [|f]; [lia|].
    assert (Hs : s <> []) by (intros ->; simpl in Hlen; lia).
    rewrite pack_fuel_step by exact Hs.
    rewrite <- (firstn_skipn 8 s) in Hbits. apply Forall_app in Hbits.
    destruct Hbits as [Hb1 Hb2].
    destruct (bitset_chunk (firstn 8 s)) as [v [Ev Es]];
      [rewrite length_firstn; lia | exact Hb1 |].
    destruct (IH (skipn 8 s) f) as [out [Eo [Ef El]]];
      [rewrite length_skipn; lia | exact Hb2 | lia |].
    rewrite Ev, Eo. exists (ascii_of_N v :: out). split; [reflexivity|].
    split.
    + cbn [flat_map]. rewrite Es, Ef. apply firstn_skipn.
    + simpl. now rewrite El.
Qed.

Lemma extra_bits_range : forall encoded, 0 <= extra_bits encoded <= 7.
Proof.
  intros encoded. unfold extra_bits.
  pose proof (Z.mod_pos_bound (8 - Z.of_nat (length encoded) mod 8) 8). lia.
Qed.

Lemma pad_app : forall encoded,
    pad encoded = encoded ++ repeat "0" (Z.to_nat (extra_bits encoded)).
Proof.
  intros encoded. unfold pad.
  pose proof (extra_bits_range encoded) as R.
  destruct (extra_bits encoded >? 0)%Z eqn:E; [reflexivity|].
  rewrite Z.gtb_ltb in E. apply Z.ltb_ge in E.
  replace (extra_bits encoded) with 0 by lia.
  simpl. now rewrite app_nil_r.
Qed.

Lemma pad_length : forall encoded,
    Z.of_nat (length (pad encoded)) = Z.of_nat (length encoded) + extra_bits encoded.
Proof.
  intros encoded. rewrite pad_app, length_app, repeat_length.
  pose proof (extra_bits_range encoded). lia.
Qed.

Lemma pad_length_chunks : forall encoded,
    exists k, length (pad encoded) = (8 * k)%nat.
Proof.
  intros encoded.
  pose proof (pad_length encoded) as L.
  assert (M : exists k, 0 <= k /\
                Z.of_nat (length encoded) + extra_bits encoded = 8 * k).
  { unfold extra_bits.
    set (n := Z.of_nat (length encoded)).
    assert (0 <= n) by (unfold n; lia).
    pose proof (Z.mod_pos_bound n 8 ltac:(lia)).
    pose proof (Z.div_mod n 8 ltac:(lia)).
    assert (0 <= n / 8) by (apply Z.div_pos; lia).
    destruct (Z.eq_dec (n mod 8) 0) as [E|E].
    - rewrite E. change ((8 - 0) mod 8) with 0. exists (n / 8). lia.
    - rewrite (Z.mod_small (8 - n mod 8) 8) by lia.
      exists (n / 8 + 1). lia. }
  destruct M as [k [Hk M]].
  exists (Z.to_nat k). apply Nat2Z.inj.
  rewrite L, M, Nat2Z.inj_mul, Z2Nat.id by lia. reflexivity.
Qed.

Lemma pad_bits : forall encoded, Forall is_bit encoded -> Forall is_bit (pad encoded).
Proof.
  intros encoded H. rewrite pad_app. apply Forall_app. split; [exact H|].
  apply Forall_forall. intros c Hc. apply repeat_spec in Hc. left. exact Hc.
Qed.

Lemma pack_pad : forall encoded,
    Forall is_bit encoded ->
    exists payload,
      pack (pad encoded) = Some payload /\
      flat_map bitset_to_string payload = pad encoded /\
      length (pad encoded) = (8 * length payload)%nat.
Proof.
  intros encoded H.
  destruct (pad_length_chunks encoded) as [k Hk].
  destruct (pack_fuel_chunks k (pad encoded) (length (pad encoded)))
    as [payload [E1 [E2 E3]]]; [exact Hk | now apply pad_bits | lia |].
  exists payload. unfold pack. rewrite E3. auto.
Qed.

Lemma drop_padding_pad : forall encoded,
    drop_padding (extra_bits encoded) (pad encoded) = encoded.
Proof.
  intros encoded. unfold drop_padding.
  pose proof (extra_bits_range encoded) as R.
  pose proof (pad_length encoded) as L.
  destruct (extra_bits encoded >? 0)%Z eqn:E.
  - replace (extra_bits encoded <=? 8)%Z with true by (symmetry; apply Z.leb_le; lia).
    replace (Z.of_nat (length (pad encoded)) >=? extra_bits encoded)%Z with true
      by (symmetry; rewrite Z.geb_leb; apply Z.leb_le; lia).
    cbn [andb].
    replace (length (pad encoded) - Z.to_nat (extra_bits encoded))%nat
      with (length encoded) by lia.
    rewrite pad_app, firstn_app, Nat.sub_diag, firstn_O, app_nil_r.
    apply firstn_all.
  - cbn [andb]. unfold pad. now rewrite E.
Qed.

Lemma pad_byte_value : forall encoded,
    Z.of_N (N_of_ascii (ascii_of_N (Z.to_N (extra_bits encoded)))) = extra_bits encoded.
Proof.
  intros encoded. pose proof (extra_bits_range encoded) as R.
  rewrite N_ascii_embedding by lia. lia.
Qed.

(** ** Counting frequencies *)

Lemma count_freq_keys_from : forall input m,
    NoDup (map fst m) ->
    NoDup (map fst (fold_left count_char input m)) /\
    (forall c, In c (map fst (fold_left count_char input m)) <->
               In c (map fst m) \/ In c input).
Proof.
  induction input as [|a input IH]; intros m Hnd; simpl.
  - split; [exact Hnd | tauto].
  - assert (K : map fst (count_char m a) =
                if in_dec ascii_dec a (map fst m) then map fst m else map fst m ++ [a])
      by apply map_set_keys.
    assert (Hnd' : NoDup (map fst (count_char m a))).
    { rewrite K. destruct (in_dec ascii_dec a (map fst m)) as [Hin|Hnin]; [exact Hnd|].
      apply NoDup_app; [exact Hnd | repeat constructor; auto |].
      intros x Hx [Hx'|[]]. subst. tauto. }
    destruct (IH _ Hnd') as [H1 H2]. split; [exact H1|].
    intros c. rewrite H2, K.
    destruct (in_dec ascii_dec a (map fst m)) as [Hin|Hnin].
    + split; [tauto|]. intros [H|[H|H]]; subst; auto.
    + rewrite in_app_iff. simpl. tauto.
Qed.

Lemma count_freq_keys : forall input,
    NoDup (map fst (count_freq input)) /\
    (forall c, In c (map fst (count_freq input)) <-> In c input).
Proof.
  intros input. destruct (count_freq_keys_from input [] (NoDup_nil _)) as [H1 H2].
  split; [exact H1|]. intros c. rewrite (H2 c). simpl. tauto.
Qed.

Lemma count_freq_nonempty : forall input, input <> [] -> count_freq input <> [].
Proof.
  intros [|a input] H E; [congruence|].
  destruct (count_freq_keys (a :: input)) as [_ K].
  specialize (K a). rewrite E in K. simpl in K. tauto.
Qed.

Lemma count_char_single : forall c n,
    count_char [(c, n)] c = [(c, int_add n 1)].
Proof.
  intros c n. unfold count_char, map_at. simpl. now rewrite Ascii.eqb_refl.
Qed.

(** One distinct character: one entry. *)
Lemma count_freq_repeat : forall c n,
    exists k, count_freq (repeat c (S n)) = [(c, k)].
Proof.
  intros c n. unfold count_freq. simpl.
  change (count_char [] c) with [(c, int_add 0 1)].
  generalize (int_add 0 1). induction n as [|n IH]; intros k; simpl.
  - eauto.
  - rewrite count_char_single. apply IH.
Qed.

(** ** The code table of a tree *)

Lemma table_of_in : forall tree c s,
    In (c, s) (table_of tree) -> leaf_at tree s c.
Proof.
  intros tree c s H. apply assign_all_in in H. destruct H as [H|[]].
  apply codes_leaf_at in H. destruct H as [p [-> Hp]]. exact Hp.
Qed.

Lemma table_of_bits : forall tree c, Forall is_bit (map_at [] c (table_of tree)).
Proof.
  intros tree c. unfold map_at.
  destruct (map_find c (table_of tree)) as [s|] eqn:E; [|constructor].
  apply map_find_in, table_of_in in E. eapply leaf_at_bits; eauto.
Qed.

Lemma encode_table_bits : forall tree input,
    Forall is_bit (encode (table_of tree) input).
Proof.
  intros tree. induction input as [|c input IH]; simpl; [constructor|].
  apply Forall_app. split; [apply table_of_bits | exact IH].
Qed.

Lemma table_of_find : forall tree c,
    NoDup (leaves tree) -> In c (leaves tree) ->
    leaf_at tree (map_at [] c (table_of tree)) c.
Proof.
  intros tree c Hnd Hin.
  rewrite <- (codes_keys tree []) in Hnd, Hin.
  apply in_map_iff in Hin. destruct Hin as [[c' s] [Ec Hin]]. simpl in Ec. subst c'.
  unfold map_at, table_of. rewrite (assign_all_find _ _ c s Hnd Hin).
  apply codes_leaf_at in Hin. destruct Hin as [p [-> Hp]]. exact Hp.
Qed.

Lemma table_of_reread : forall tree, table_of (reread tree) = table_of tree.
Proof. intros tree. unfold table_of. now rewrite reread_codes. Qed.

Lemma leaves_reread : forall tree, leaves (reread tree) = leaves tree.
Proof.
  intros tree. now rewrite <- (codes_keys (reread tree) []), reread_codes, codes_keys.
Qed.

(** A tree with two leaves or more is not a leaf: its codes have at
    least one bit. *)
Lemma table_of_decodable : forall tree input,
    NoDup (leaves tree) -> is_leaf tree = false ->
    (forall c, In c input -> In c (leaves tree)) ->
    decodable (table_of tree) tree input.
Proof.
  intros tree input Hnd Hinner Hin c Hc.
  pose proof (table_of_find tree c Hnd (Hin c Hc)) as Hleaf.
  split; [exact Hleaf|].
  intros E. rewrite E in Hleaf. inversion Hleaf; subst. discriminate.
Qed.

(** ** Building the tree *)

Section Building.
Context {UM : UnorderedMapOrder} {PQ : PriorityQueue}.

Lemma fill_elems_from : forall entries q,
    Permutation
      (pq_elems (fold_left (fun q pair => pq_push (new_Node (fst pair) (snd pair)) q)
                           entries q))
      (map leaf_of entries ++ pq_elems q).
Proof.
  induction entries as [|e entries IH]; intros q; simpl; [apply Permutation_refl|].
  eapply Permutation_trans; [apply IH|].
  eapply Permutation_trans;
    [apply Permutation_app_head, pq_elems_push|].
  apply Permutation_sym, Permutation_middle.
Qed.

Lemma fill_queue_elems : forall freqMap,
    Permutation (pq_elems (fill_queue freqMap)) (map leaf_of freqMap).
Proof.
  intros freqMap. unfold fill_queue.
  eapply Permutation_trans; [apply fill_elems_from|].
  rewrite pq_elems_empty, app_nil_r.
  apply Permutation_map, um_iterate_perm.
Qed.

Lemma pq_top_single : forall q t, pq_elems q = [t] -> pq_top q = t.
Proof.
  intros q t E.
  assert (H : pq_elems q <> []) by (rewrite E; discriminate).
  apply pq_elems_pop in H. rewrite E in H.
  apply Permutation_length_1_inv in H. now inversion H.
Qed.

(** The two [top]/[pop] pairs of one round of the merging loop. *)
Lemma pq_pop_two : forall q,
    (1 < pq_size q)%nat ->
    Permutation (pq_elems q)
                (pq_top q :: pq_top (pq_pop q) :: pq_elems (pq_pop (pq_pop q))).
Proof.
  intros q Hsize. rewrite pq_size_elems in Hsize.
  assert (H1 : pq_elems q <> []) by (destruct (pq_elems q); [simpl in Hsize; lia | discriminate]).
  pose proof (pq_elems_pop q H1) as P1.
  assert (H2 : pq_elems (pq_pop q) <> []).
  { apply Permutation_length in P1. simpl in P1.
    destruct (pq_elems (pq_pop q)); [simpl in P1; lia | discriminate]. }
  pose proof (pq_elems_pop _ H2) as P2.
  eapply Permutation_trans; [exact P1|]. now apply perm_skip.
Qed.

Lemma merge_fuel_done : forall fuel q,
    (pq_size q <= 1)%nat -> merge_fuel fuel q = q.
Proof.
  intros [|fuel] q H; [reflexivity|]. simpl.
  destruct (Nat.ltb_spec 1 (pq_size q)); [lia | reflexivity].
Qed.

Lemma merge_fuel_tree : forall fuel q,
    (pq_size q <= fuel)%nat -> (1 <= pq_size q)%nat ->
    Forall full (pq_elems q) ->
    exists t,
      pq_elems (merge_fuel fuel q) = [t] /\ full t /\
      Permutation (leaves t) (flat_map leaves (pq_elems q)).
Proof.
  induction fuel as [|fuel IH]; intros q Hfuel Hsize Hfull; [lia|].
  cbn [merge_fuel].
  destruct (Nat.ltb_spec 1 (pq_size q)) as [Hlt|Hge].
  - pose proof (pq_pop_two q Hlt) as P.
    set (l := pq_top q) in *. set (r := pq_top (pq_pop q)) in *.
    set (q2 := pq_pop (pq_pop q)) in *.
    set (merged := Node nul (int_add (freq_of l) (freq_of r)) l r).
    pose proof (Permutation_Forall P Hfull) as Hfull'.
    inversion Hfull' as [|? ? Fl Hfull'']; subst.
    inversion Hfull'' as [|? ? Fr Frest]; subst.
    pose proof (pq_elems_push merged q2) as Ppush.
    assert (Hlen : length (pq_elems (pq_push merged q2)) = (pq_size q - 1)%nat).
    { apply Permutation_length in Ppush, P. rewrite Ppush.
      rewrite pq_size_elems, P. simpl. lia. }
    destruct (IH (pq_push merged q2)) as [t [Et [Ft Pt]]].
    + rewrite pq_size_elems. lia.
    + rewrite pq_size_elems. lia.
    + apply (Permutation_Forall (Permutation_sym Ppush)).
      constructor; [constructor; assumption | exact Frest].
    + exists t. split; [exact Et|]. split; [exact Ft|].
      eapply Permutation_trans; [exact Pt|].
      eapply Permutation_trans; [apply Permutation_flat_map, Ppush|].
      eapply Permutation_trans; [|apply Permutation_flat_map, Permutation_sym, P].
      cbn [flat_map]. unfold merged.
      rewrite leaves_inner by (destruct Fl; reflexivity).
      rewrite <- app_assoc. apply Permutation_refl.
  - rewrite pq_size_elems in *.
    destruct (pq_elems q) as [|t [|t' rest]] eqn:E; simpl in *; try lia.
    exists t. inversion Hfull; subst. rewrite app_nil_r. auto.
Qed.

Lemma leaves_leaf_of : forall freqMap,
    flat_map leaves (map leaf_of freqMap) = map fst freqMap.
Proof.
  induction freqMap as [|[c n] freqMap IH]; simpl; [reflexivity|].
  now rewrite IH.
Qed.

(** The tree of a non-empty frequency table: every node has both
    children or none, and every key is on exactly one leaf. *)
Lemma build_tree_full : forall freqMap,
    freqMap <> [] ->
    full (build_tree freqMap) /\
    Permutation (leaves (build_tree freqMap)) (map fst freqMap).
Proof.
  intros freqMap Hne.
  pose proof (fill_queue_elems freqMap) as P.
  assert (Hfull : Forall full (pq_elems (fill_queue freqMap))).
  { apply (Permutation_Forall (Permutation_sym P)).
    apply Forall_forall. intros n Hn. apply in_map_iff in Hn.
    destruct Hn as [pair [<- _]]. constructor. }
  assert (Hsize : (1 <= pq_size (fill_queue freqMap))%nat).
  { rewrite pq_size_elems, (Permutation_length P), length_map.
    destruct freqMap; [congruence | simpl; lia]. }
  destruct (merge_fuel_tree (pq_size (fill_queue freqMap)) (fill_queue freqMap))
    as [t [Et [Ft Pt]]]; [lia | exact Hsize | exact Hfull |].
  unfold build_tree, merge_all. rewrite (pq_top_single _ _ Et).
  split; [exact Ft|].
  eapply Permutation_trans; [exact Pt|].
  eapply Permutation_trans; [apply Permutation_flat_map, P|].
  rewrite leaves_leaf_of. apply Permutation_refl.
Qed.

Lemma build_tree_leaves : forall input,
    input <> [] ->
    let tree := build_tree (count_freq input) in
    full tree /\ NoDup (leaves tree) /\
    (forall c, In c (leaves tree) <-> In c input).
Proof.
  intros input Hne tree.
  destruct (build_tree_full (count_freq input) (count_freq_nonempty _ Hne)) as [Hf P].
  destruct (count_freq_keys input) as [Hnd Hin].
  split; [exact Hf|]. split.
  - apply (Permutation_NoDup (Permutation_sym P) Hnd).
  - intros c. rewrite <- Hin. split; apply Permutation_in; [exact P | exact (Permutation_sym P)].
Qed.

(** Two distinct characters in the input: the root is an inner node. *)
Lemma build_tree_inner : forall input a b,
    In a input -> In b input -> a <> b ->
    is_leaf (build_tree (count_freq input)) = false.
Proof.
  intros input a b Ha Hb Hab.
  assert (Hne : input <> []) by (intros ->; destruct Ha).
  destruct (build_tree_leaves input Hne) as [Hf [_ Hin]].
  apply Hin in Ha. apply Hin in Hb.
  destruct (is_leaf (build_tree (count_freq input))) eqn:E; [|reflexivity].
  destruct (build_tree (count_freq input)) as [|c f [|] [|]]; try discriminate.
  simpl in Ha, Hb. destruct Ha as [<-|[]]. destruct Hb as [<-|[]]. congruence.
Qed.

Lemma compress_object_table : forall input,
    huffmanCode (compress_object input) = table_of (build_tree (count_freq input)).
Proof. intros input. unfold compress_object. now rewrite buildCode_table. Qed.

Lemma compress_object_root : forall input,
    root (compress_object input) = build_tree (count_freq input).
Proof. intros input. unfold compress_object. now rewrite buildCode_root. Qed.

Lemma compress_nonempty : forall input,
    input <> [] ->
    compress input =
    let h := compress_object input in
    let encoded := encode (huffmanCode h) input in
    match pack (pad encoded) with
    | None => Crash
    | Some payload =>
        Done (writeTree (root h) ++ [newline]
                ++ [ascii_of_N (Z.to_N (extra_bits encoded))] ++ payload)
    end.
Proof.
  intros input Hne. apply count_freq_nonempty in Hne.
  unfold compress. destruct (count_freq input); [congruence | reflexivity].
Qed.

(** What [compress] writes for a non-empty input. *)
Lemma compress_layout : forall input,
    input <> [] ->
    let tree := build_tree (count_freq input) in
    let encoded := encode (table_of tree) input in
    exists payload,
      compress input =
        Done (writeTree tree ++ [newline]
                ++ [ascii_of_N (Z.to_N (extra_bits encoded))] ++ payload) /\
      flat_map bitset_to_string payload = pad encoded /\
      length (pad encoded) = (8 * length payload)%nat.
Proof.
  intros input Hne tree encoded.
  destruct (pack_pad encoded (encode_table_bits tree input)) as [payload [E1 [E2 E3]]].
  exists payload. split; [|auto].
  rewrite compress_nonempty by exact Hne. cbv zeta.
  rewrite compress_object_table, compress_object_root.
  fold tree. fold encoded. now rewrite E1.
Qed.
End Building.

(** ** Reading back what compress wrote *)

Lemma skip_newline_cases : forall c rest,
    skip_newline (open (c :: rest)) =
    if (c =? newline) then open rest else open (c :: rest).
Proof.
  intros c rest. unfold skip_newline, peek, get, open. simpl.
  destruct (c =? newline); reflexivity.
Qed.

Lemma read_header_written : forall tree e payload,
    full tree ->
    read_header (writeTree tree ++ [newline] ++ [e] ++ payload) =
    Done {| h_root := reread tree;
            h_extraBits := Z.of_N (N_of_ascii e);
            h_payload := open payload |}.
Proof.
  intros tree e payload Hfull. unfold read_header.
  rewrite readTree_writeTree by exact Hfull.
  pose proof (full_not_null _ (reread_full _ Hfull)) as Hnn.
  destruct (reread tree) as [|c f l r]; [congruence|].
  cbn [app]. rewrite skip_newline_cases.
  change (newline =? newline) with true. cbv iota. reflexivity.
Qed.

Lemma decompress_written : forall tree e payload,
    full tree ->
    decompress (writeTree tree ++ [newline] ++ [e] ++ payload) =
    walk (reread tree) (reread tree)
         (drop_padding (Z.of_N (N_of_ascii e)) (flat_map bitset_to_string payload)).
Proof.
  intros tree e payload Hfull. unfold decompress.
  rewrite read_header_written by exact Hfull. reflexivity.
Qed.

Lemma bitset_to_string_length : forall c, length (bitset_to_string c) = 8%nat.
Proof. intros [b0 b1 b2 b3 b4 b5 b6 b7]. reflexivity. Qed.

(** Without its last byte, the payload unpacks to all bits but the
    last eight. *)
Lemma unpack_removelast : forall payload,
    payload <> [] ->
    flat_map bitset_to_string (removelast payload) =
    firstn (length (flat_map bitset_to_string payload) - 8)
           (flat_map bitset_to_string payload).
Proof.
  intros payload Hne.
  rewrite (app_removelast_last nul Hne) at 2 3.
  rewrite flat_map_app. cbn [flat_map]. rewrite app_nil_r.
  rewrite length_app, bitset_to_string_length, Nat.add_sub.
  rewrite firstn_app, Nat.sub_diag, firstn_O, app_nil_r.
  symmetry. apply firstn_all.
Qed.

Lemma drop_padding_firstn : forall extraBits bitString,
    exists m, (m <= length bitString)%nat /\
              drop_padding extraBits bitString = firstn m bitString.
Proof.
  intros extraBits bitString. unfold drop_padding.
  destruct ((extraBits >? 0)%Z && (extraBits <=? 8)%Z
            && (Z.of_nat (length bitString) >=? extraBits)%Z).
  - exists (length bitString - Z.to_nat extraBits)%nat. split; [lia | reflexivity].
  - exists (length bitString). split; [lia | symmetry; apply firstn_all].
Qed.

Section RoundTrip.
Context {UM : UnorderedMapOrder} {PQ : PriorityQueue}.

Lemma reread_decodable : forall input a b,
    In a input -> In b input -> a <> b ->
    let tree := build_tree (count_freq input) in
    decodable (table_of tree) (reread tree) input.
Proof.
  intros input a b Ha Hb Hab tree.
  assert (Hne : input <> []) by (intros ->; destruct Ha).
  destruct (build_tree_leaves input Hne) as [Hf [Hnd Hin]].
  rewrite <- table_of_reread.
  apply table_of_decodable.
  - rewrite leaves_reread. exact Hnd.
  - rewrite reread_is_leaf. exact (build_tree_inner input a b Ha Hb Hab).
  - intros c Hc. rewrite leaves_reread. apply Hin. exact Hc.
Qed.

(** With two distinct characters or more in the input, [decompress]
    gives back what [compress] was given. *)
Theorem round_trip_two_symbols : forall input a b,
    In a input -> In b input -> a <> b ->
    exists artifact,
      compress input = Done artifact /\ decompress artifact = Done input.
Proof.
  intros input a b Ha Hb Hab.
  assert (Hne : input <> []) by (intros ->; destruct Ha).
  destruct (compress_layout input Hne) as [payload [Ec [Eb _]]].
  destruct (build_tree_leaves input Hne) as [Hf _].
  eexists. split; [exact Ec|].
  rewrite decompress_written by exact Hf.
  rewrite Eb, pad_byte_value, drop_padding_pad.
  apply walk_encode. exact (reread_decodable input a b Ha Hb Hab).
Qed.

(** The same artifact with the last byte of its payload removed. *)
Lemma truncated_payload_decodes : forall input a b,
    In a input -> In b input -> a <> b ->
    let tree := build_tree (count_freq input) in
    exists pad payload,
      compress input = Done (writeTree tree ++ [newline] ++ [pad] ++ payload) /\
      payload <> [] /\
      exists out c rest,
        decompress (writeTree tree ++ [newline] ++ [pad] ++ removelast payload)
          = Done out /\
        input = out ++ c :: rest.
Proof.
  intros input a b Ha Hb Hab tree.
  assert (Hne : input <> []) by (intros ->; destruct Ha).
  destruct (compress_layout input Hne) as [payload [Ec [Eb El]]].
  destruct (build_tree_leaves input Hne) as [Hf _].
  fold tree in Ec, Eb, El, Hf.
  pose proof (reread_decodable input a b Ha Hb Hab) as Hdec. fold tree in Hdec.
  set (encoded := encode (table_of tree) input) in *.
  pose proof (encode_length _ _ input Hdec) as Hlen. fold encoded in Hlen.
  pose proof (pad_length encoded) as Hpad.
  pose proof (extra_bits_range encoded) as Hrange.
  assert (Hin : (1 <= length input)%nat) by (destruct input; [congruence | simpl; lia]).
  assert (Hpl : payload <> []) by (intros ->; simpl in El; lia).
  eexists. exists payload. split; [exact Ec|]. split; [exact Hpl|].
  rewrite decompress_written by exact Hf.
  rewrite unpack_removelast by exact Hpl. rewrite Eb.
  destruct (drop_padding_firstn
              (Z.of_N (N_of_ascii (ascii_of_N (Z.to_N (extra_bits encoded)))))
              (firstn (length (pad encoded) - 8) (pad encoded)))
    as [m [Hm ->]].
  rewrite length_firstn in Hm.
  rewrite firstn_firstn.
  assert (Hm' : (Nat.min m (length (pad encoded) - 8) < length encoded)%nat) by lia.
  rewrite pad_app, firstn_app.
  replace (Nat.min m (length (encoded ++ repeat "0" (Z.to_nat (extra_bits encoded))) - 8)
           - length encoded)%nat with 0%nat by (rewrite <- pad_app; lia).
  rewrite firstn_O, app_nil_r.
  apply walk_encode_firstn; [exact Hdec|].
  rewrite <- pad_app. exact Hm'.
Qed.
End RoundTrip.

(** ** One distinct character *)

Section SingleSymbol.
Context {UM : UnorderedMapOrder} {PQ : PriorityQueue}.

Lemma build_tree_single : forall c k, build_tree [(c, k)] = new_Node c k.
Proof.
  intros c k.
  pose proof (fill_queue_elems [(c, k)]) as P. simpl in P.
  apply Permutation_sym, Permutation_length_1_inv in P.
  unfold build_tree, merge_all.
  rewrite merge_fuel_done by (rewrite pq_size_elems, P; simpl; lia).
  apply pq_top_single. exact P.
Qed.

Lemma encode_empty_code : forall c n, encode [(c, [])] (repeat c n) = [].
Proof.
  intros c n. induction n as [|n IH]; simpl; [reflexivity|].
  unfold map_at. simpl. rewrite Ascii.eqb_refl. exact IH.
Qed.

Lemma compress_object_single : forall c n,
    exists k,
      root (compress_object (repeat c (S n))) = new_Node c k /\
      huffmanCode (compress_object (repeat c (S n))) = [(c, [])].
Proof.
  intros c n. destruct (count_freq_repeat c n) as [k Ek].
  exists k. rewrite compress_object_root, compress_object_table, Ek.
  rewrite build_tree_single. split; reflexivity.
Qed.
End SingleSymbol.

(** * The claims *)

(** C1 (round trip), evaluated on the input "aaaa": [compress] writes
    the four bytes '1' 'a' '\n' 0x00, and [decompress] makes the empty
    file of them, not "aaaa". *)
Theorem C1_repeated_byte_not_recovered :
  compress (file_of "aaaa") = Done (file_of "1a" ++ [newline; nul]) /\
  decompress (file_of "1a" ++ [newline; nul]) = Done [] /\
  file_of "aaaa" <> [].
Proof.
  split; [reflexivity|]. split; [reflexivity | discriminate].
Qed.

(** C2 (single repeated byte): whatever the byte [c] and the number of
    repetitions, the code table of [compress] gives [c] the empty code,
    of no bit, the artifact is '1' c '\n' 0x00 with no payload, and
    [decompress] makes the empty file of it. *)
Theorem C2_single_symbol_gets_empty_code :
  forall (UM : UnorderedMapOrder) (PQ : PriorityQueue) (c : ascii) (n : nat),
    huffmanCode (compress_object (repeat c (S n))) = [(c, [])] /\
    compress (repeat c (S n)) = Done ["1"; c; newline; nul] /\
    decompress ["1"; c; newline; nul] = Done [].
Proof.
  intros UM PQ c n.
  destruct (compress_object_single c n) as [k [Er Et]].
  split; [exact Et|]. split; [|reflexivity].
  rewrite compress_nonempty by discriminate. cbv zeta.
  rewrite Er, Et, encode_empty_code. reflexivity.
Qed.

(** C5 (empty input): [compress] of a file of length zero prints the
    empty-input error and returns before it opens the output file. *)
Theorem C5_empty_input_rejected :
  forall (UM : UnorderedMapOrder) (PQ : PriorityQueue) (input : list ascii),
    length input = 0%nat -> compress input = Failed ErrInputEmpty.
Proof.
  intros UM PQ input H. apply length_zero_iff_nil in H. subst input. reflexivity.
Qed.

Lemma C5_empty_input_rejected_witness :
  length (@nil ascii) = 0%nat /\ compress [] = Failed ErrInputEmpty.
Proof.
  split; [reflexivity|].
  apply (C5_empty_input_rejected insertion_order list_queue []). reflexivity.
Defined.

(** C8 (prefix-free codes): for a non-empty input, the code of an entry
    of the code table is never a prefix of the code of another entry. *)
Theorem C8_code_table_prefix_free :
  forall (UM : UnorderedMapOrder) (PQ : PriorityQueue) (input : list ascii)
         (e1 e2 : ascii * list ascii),
    input <> [] ->
    In e1 (huffmanCode (compress_object input)) ->
    In e2 (huffmanCode (compress_object input)) ->
    e1 <> e2 ->
    prefixb (snd e1) (snd e2) = false.
Proof.
  intros UM PQ input [c1 s1] [c2 s2] _ H1 H2 Hne. simpl.
  rewrite compress_object_table in H1, H2.
  apply table_of_in in H1. apply table_of_in in H2.
  destruct (prefixb s1 s2) eqn:E; [|reflexivity].
  apply prefixb_app in E. destruct E as [q ->].
  destruct (leaf_at_prefix _ _ _ H1 _ _ H2) as [-> ->].
  rewrite app_nil_r in Hne. congruence.
Qed.

Lemma C8_code_table_prefix_free_witness :
  file_of "ab" <> [] /\
  In ("a", ["0"]) (huffmanCode (compress_object (file_of "ab"))) /\
  In ("b", ["1"]) (huffmanCode (compress_object (file_of "ab"))) /\
  ("a", ["0"]) <> ("b", ["1"]) /\
  prefixb ["0"] ["1"] = false.
Proof.
  assert (H0 : file_of "ab" <> []) by discriminate.
  assert (H1 : In ("a", ["0"]) (huffmanCode (compress_object (file_of "ab"))))
    by (left; reflexivity).
  assert (H2 : In ("b", ["1"]) (huffmanCode (compress_object (file_of "ab"))))
    by (right; left; reflexivity).
  assert (H3 : ("a", ["0"]) <> ("b", ["1"])) by discriminate.
  split; [exact H0|]. split; [exact H1|]. split; [exact H2|]. split; [exact H3|].
  exact (C8_code_table_prefix_free insertion_order list_queue (file_of "ab")
           ("a", ["0"]) ("b", ["1"]) H0 H1 H2 H3).
Defined.

(** C10 (framing): in every artifact [compress] writes, the serialised
    tree is followed by one newline byte and then the pad-count byte;
    [decompress], having read the tree, takes one byte away exactly
    when it is a newline, and so reads as pad count the byte that
    [compress] wrote as pad count. *)
Theorem C10_newline_between_tree_and_pad_count :
  forall (UM : UnorderedMapOrder) (PQ : PriorityQueue)
         (input artifact : list ascii),
    compress input = Done artifact ->
    let tree := root (compress_object input) in
    let padCount := extra_bits (encode (huffmanCode (compress_object input)) input) in
    exists payload,
      artifact = writeTree tree ++ [newline]
                   ++ [ascii_of_N (Z.to_N padCount)] ++ payload /\
      readTree (open artifact) =
        (reread tree, open ([newline] ++ [ascii_of_N (Z.to_N padCount)] ++ payload)) /\
      (forall c rest,
          skip_newline (open (c :: rest)) =
          if (c =? newline) then open rest else open (c :: rest)) /\
      read_header artifact =
        Done {| h_root := reread tree;
                h_extraBits := padCount;
                h_payload := open payload |}.
Proof.
  intros UM PQ input artifact Hc tree padCount.
  assert (Hne : input <> []) by (intros ->; discriminate Hc).
  destruct (compress_layout input Hne) as [payload [Ec _]].
  destruct (build_tree_leaves input Hne) as [Hf _].
  unfold tree, padCount. rewrite compress_object_table, compress_object_root.
  rewrite Ec in Hc. inversion Hc as [Ha]. clear Hc. subst artifact.
  exists payload.
  split; [reflexivity|]. split; [apply readTree_writeTree; exact Hf|].
  split; [exact skip_newline_cases|].
  eapply eq_trans; [exact (read_header_written _ _ payload Hf)|].
  now rewrite pad_byte_value.
Qed.

Lemma C10_newline_between_tree_and_pad_count_witness :
  compress (file_of "ab") = Done (file_of "01a1b" ++ [newline; "006"; "@"]) /\
  exists payload,
    file_of "01a1b" ++ [newline; "006"; "@"] =
      file_of "01a1b" ++ [newline] ++ [ascii_of_N (Z.to_N 6)] ++ payload /\
    read_header (file_of "01a1b" ++ [newline; "006"; "@"]) =
      Done {| h_root := Node nul 0 (new_Node "a" 0) (new_Node "b" 0);
              h_extraBits := 6;
              h_payload := open payload |}.
Proof.
  assert (H : compress (file_of "ab") = Done (file_of "01a1b" ++ [newline; "006"; "@"]))
    by reflexivity.
  split; [exact H|].
  destruct (C10_newline_between_tree_and_pad_count
              insertion_order list_queue _ _ H) as [payload [E1 [_ [_ E2]]]].
  exists payload. split; [exact E1 | exact E2].
Defined.

(** C4 (layout), as the code has it: the artifact is the tree written
    in preorder as whole characters (the character '1' and the symbol
    for a leaf, the character '0' for an inner node), then one newline
    character, then one byte holding the pad count, between 0 and 7,
    then the payload: the codes of the input followed by pad-count
    zero bits, eight bits to the byte. *)
Theorem C4_artifact_layout :
  forall (UM : UnorderedMapOrder) (PQ : PriorityQueue)
         (input artifact : list ascii),
    compress input = Done artifact ->
    let h := compress_object input in
    exists padCount payload,
      artifact = writeTree (root h) ++ [newline]
                   ++ [ascii_of_N (Z.to_N padCount)] ++ payload /\
      0 <= padCount <= 7 /\
      flat_map bitset_to_string payload =
        encode (huffmanCode h) input ++ repeat "0" (Z.to_nat padCount) /\
      full (root h) /\
      (forall c f, writeTree (Node c f nullptr nullptr) = ["1"; c]) /\
      (forall c f l r, full l -> full r ->
                       writeTree (Node c f l r) = "0" :: writeTree l ++ writeTree r).
Proof.
  intros UM PQ input artifact Hc h.
  assert (Hne : input <> []) by (intros ->; discriminate Hc).
  destruct (compress_layout input Hne) as [payload [Ec [Eb _]]].
  destruct (build_tree_leaves input Hne) as [Hf _].
  unfold h. rewrite compress_object_table, compress_object_root.
  rewrite Ec in Hc. inversion Hc as [Ha]. clear Hc. subst artifact.
  eexists. exists payload.
  split; [reflexivity|]. split; [apply extra_bits_range|].
  split; [rewrite Eb; apply pad_app|]. split; [exact Hf|].
  split; [reflexivity|].
  intros c f l r Hl Hr. destruct Hl; reflexivity.
Qed.

Lemma C4_artifact_layout_witness :
  compress (file_of "ab") = Done (file_of "01a1b" ++ [newline; "006"; "@"]) /\
  exists padCount payload,
    file_of "01a1b" ++ [newline; "006"; "@"] =
      writeTree (root (compress_object (file_of "ab"))) ++ [newline]
        ++ [ascii_of_N (Z.to_N padCount)] ++ payload /\
    0 <= padCount <= 7.
Proof.
  assert (H : compress (file_of "ab") = Done (file_of "01a1b" ++ [newline; "006"; "@"]))
    by reflexivity.
  split; [exact H|].
  destruct (C4_artifact_layout insertion_order list_queue _ _ H)
    as [padCount [payload [E [R _]]]].
  exists padCount, payload. split; [exact E | exact R].
Defined.

(** C4 as the specification states it fails on the input "ab": the
    tree takes five whole bytes, where the bit sequence of the
    specification has 19 bits, and the byte after the tree is the
    newline, not the pad count 6, which comes one byte later. *)
Lemma C4_counterexample :
  let tree := build_tree (count_freq (file_of "ab")) in
  compress (file_of "ab") = Done (writeTree tree ++ [newline; "006"; "@"]) /\
  writeTree tree = file_of "01a1b" /\
  length (spec_serialize tree) = 19%nat /\
  (8 * length (writeTree tree))%nat <> length (spec_serialize tree) /\
  extra_bits (encode (huffmanCode (compress_object (file_of "ab"))) (file_of "ab")) = 6 /\
  newline <> ascii_of_N (Z.to_N 6).
Proof.
  cbv zeta. repeat split; try reflexivity; discriminate.
Qed.

(** C6 (truncated payload), as the code has it: when the input has two
    distinct byte values or more, the artifact has at least one payload
    byte, and without its last byte [decompress] still returns
    normally, with a proper prefix of the input as output. *)
Theorem C6_truncated_payload_gives_prefix :
  forall (UM : UnorderedMapOrder) (PQ : PriorityQueue)
         (input artifact : list ascii) (a b : ascii),
    In a input -> In b input -> a <> b ->
    compress input = Done artifact ->
    exists padByte payload,
      artifact = writeTree (root (compress_object input))
                   ++ [newline] ++ [padByte] ++ payload /\
      payload <> [] /\
      exists out c rest,
        decompress (removelast artifact) = Done out /\
        input = out ++ c :: rest.
Proof.
  intros UM PQ input artifact a b Ha Hb Hab Hc.
  destruct (truncated_payload_decodes input a b Ha Hb Hab)
    as [padByte [payload [Ec [Hp [out [c [rest [Hd Hi]]]]]]]].
  rewrite Ec in Hc. inversion Hc as [Hart]. clear Hc. subst artifact.
  rewrite compress_object_root.
  exists padByte, payload.
  split; [reflexivity|]. split; [exact Hp|].
  exists out, c, rest. split; [|exact Hi].
  rewrite removelast_app by discriminate.
  replace (removelast (newline :: padByte :: payload))
    with ([newline] ++ [padByte] ++ removelast payload)
    by (destruct payload; [congruence | reflexivity]).
  exact Hd.
Qed.

Lemma C6_truncated_payload_gives_prefix_witness :
  In "a" (file_of "ab") /\ In "b" (file_of "ab") /\ "a" <> "b" /\
  compress (file_of "ab") = Done (file_of "01a1b" ++ [newline; "006"; "@"]) /\
  exists out c rest,
    decompress (removelast (file_of "01a1b" ++ [newline; "006"; "@"])) = Done out /\
    file_of "ab" = out ++ c :: rest.
Proof.
  assert (Ha : In "a" (file_of "ab")) by (left; reflexivity).
  assert (Hb : In "b" (file_of "ab")) by (right; left; reflexivity).
  assert (Hab : "a" <> "b") by discriminate.
  assert (H : compress (file_of "ab") = Done (file_of "01a1b" ++ [newline; "006"; "@"]))
    by reflexivity.
  split; [exact Ha|]. split; [exact Hb|]. split; [exact Hab|]. split; [exact H|].
  destruct (C6_truncated_payload_gives_prefix
              insertion_order list_queue _ _ "a" "b" Ha Hb Hab H)
    as [padByte [payload [_ [_ G]]]].
  exact G.
Defined.

(** C6 as the specification states it fails on the input "ab": the
    artifact without its one payload byte is decompressed without any
    error, to the empty file. *)
Lemma C6_counterexample :
  compress (file_of "ab") = Done (file_of "01a1b" ++ [newline; "006"; "@"]) /\
  removelast (file_of "01a1b" ++ [newline; "006"; "@"]) = file_of "01a1b" ++ [newline; "006"] /\
  decompress (file_of "01a1b" ++ [newline; "006"]) = Done [] /\
  file_of "ab" <> [].
Proof.
  repeat split; try reflexivity; discriminate.
Qed.

(** C7 (padding guard), as the code has it: once the tree and the
    pad-count byte are read, [decompress] has no error exit.  A pad
    count from 1 to 7 that does not exceed the number of unpacked bits
    makes it drop that many bits from the end; a pad count of 0, a pad
    count above 8, or one above the number of unpacked bits makes it
    drop nothing and decode every bit. *)
Theorem C7_pad_count_never_rejected :
  forall (file : list ascii) (h : header),
    read_header file = Done h ->
    let bits := read_bits (h_payload h) in
    let padCount := h_extraBits h in
    (forall e, decompress file <> Failed e) /\
    (1 <= padCount <= 7 -> padCount <= Z.of_nat (length bits) ->
     decompress file =
       walk (h_root h) (h_root h)
            (firstn (length bits - Z.to_nat padCount) bits)) /\
    (padCount = 0 \/ 8 < padCount \/ Z.of_nat (length bits) < padCount ->
     decompress file = walk (h_root h) (h_root h) bits).
Proof.
  intros file h Hh bits padCount.
  assert (E : decompress file =
              walk (h_root h) (h_root h) (drop_padding padCount bits))
    by (unfold decompress; rewrite Hh; reflexivity).
  split; [intros e; rewrite E; apply walk_not_failed|].
  split.
  - intros Hr Hl. rewrite E. unfold drop_padding.
    replace (padCount >? 0)%Z with true by (symmetry; rewrite Z.gtb_ltb; apply Z.ltb_lt; lia).
    replace (padCount <=? 8)%Z with true by (symmetry; apply Z.leb_le; lia).
    replace (Z.of_nat (length bits) >=? padCount)%Z with true
      by (symmetry; rewrite Z.geb_leb; apply Z.leb_le; lia).
    reflexivity.
  - intros Hr. rewrite E. unfold drop_padding.
    destruct Hr as [Hr|[Hr|Hr]].
    + rewrite Hr. reflexivity.
    + replace (padCount <=? 8)%Z with false by (symmetry; apply Z.leb_gt; lia).
      now rewrite andb_false_r.
    + replace (Z.of_nat (length bits) >=? padCount)%Z with false
        by (symmetry; rewrite Z.geb_leb; apply Z.leb_gt; lia).
      now rewrite andb_false_r.
Qed.

Lemma C7_pad_count_never_rejected_witness :
  read_header (file_of "01a1b" ++ [newline; "009"; nul]) =
    Done {| h_root := Node nul 0 (new_Node "a" 0) (new_Node "b" 0);
            h_extraBits := 9;
            h_payload := open [nul] |} /\
  (forall e, decompress (file_of "01a1b" ++ [newline; "009"; nul]) <> Failed e).
Proof.
  assert (H : read_header (file_of "01a1b" ++ [newline; "009"; nul]) =
              Done {| h_root := Node nul 0 (new_Node "a" 0) (new_Node "b" 0);
                      h_extraBits := 9;
                      h_payload := open [nul] |}) by reflexivity.
  split; [exact H|].
  exact (proj1 (C7_pad_count_never_rejected _ _ H)).
Defined.

(** C7 as the specification states it fails: with the pad count 9,
    above 7, and with the pad count 5 and no payload bit at all,
    [decompress] decodes and returns normally. *)
Lemma C7_counterexample :
  decompress (file_of "01a1b" ++ [newline; "009"; nul]) = Done (file_of "aaaaaaaa") /\
  decompress (file_of "01a1b" ++ [newline; "005"]) = Done [].
Proof.
  split; reflexivity.
Qed.

(** C9 (truncated tree), evaluated on the one-byte file "0" and on the
    file "01a": [readTree] returns a node, not the null pointer; the
    node of "0" has no child and the node of "01a" a left child only.
    [decompress] then stops on the end-of-file error, not on the
    tree-read error. *)
Theorem C9_partial_tree_returned :
  readTree (open (file_of "0")) =
    (Node nul 0 nullptr nullptr, {| buf := []; failbit := true |}) /\
  readTree (open (file_of "01a")) =
    (Node nul 0 (new_Node "a" 0) nullptr, {| buf := []; failbit := true |}) /\
  decompress (file_of "0") = Failed ErrUnexpectedEof /\
  decompress (file_of "01a") = Failed ErrUnexpectedEof.
Proof.
  repeat split; reflexivity.
Qed.

(** *** The merging loop, round by round, and repeated calls *)

Section MergeOrder.
Context {UM : UnorderedMapOrder} {PQ : PriorityQueue}.

Lemma merge_fuel_round : forall fuel q,
    (1 < pq_size q)%nat ->
    merge_fuel (S fuel) q = merge_fuel fuel (merge_round q).
Proof.
  intros fuel q H. cbn [merge_fuel].
  destruct (Nat.ltb_spec 1 (pq_size q)); [reflexivity | lia].
Qed.

Lemma merge_round_size : forall q,
    (1 < pq_size q)%nat -> S (pq_size (merge_round q)) = pq_size q.
Proof.
  intros q H. pose proof (pq_pop_two q H) as P.
  apply Permutation_length in P.
  unfold merge_round. rewrite !pq_size_elems.
  rewrite (Permutation_length (pq_elems_push _ _)), P. simpl. lia.
Qed.

(** The two nodes a round takes are the lightest of the queue. *)
Lemma round_takes_lowest : forall q,
    (1 < pq_size q)%nat ->
    freq_of (pq_top q) <= freq_of (pq_top (pq_pop q)) /\
    Forall (fun x => freq_of (pq_top (pq_pop q)) <= freq_of x)
           (pq_elems (pq_pop (pq_pop q))).
Proof.
  intros q Hsize.
  assert (Cmp : forall a b, Compare a b = false <-> freq_of a <= freq_of b).
  { intros a b. unfold Compare. rewrite Z.gtb_ltb. apply Z.ltb_ge. }
  pose proof (pq_pop_two q Hsize) as P.
  pose proof (pq_top_first q) as T1.
  pose proof (pq_top_first (pq_pop q)) as T2.
  assert (P1 : Permutation (pq_elems q) (pq_top q :: pq_elems (pq_pop q))).
  { apply pq_elems_pop. rewrite pq_size_elems in Hsize.
    destruct (pq_elems q); [simpl in Hsize; lia | discriminate]. }
  assert (P2 : Permutation (pq_elems (pq_pop q))
                           (pq_top (pq_pop q) :: pq_elems (pq_pop (pq_pop q)))).
  { apply Permutation_cons_inv with (a := pq_top q).
    eapply Permutation_trans; [apply Permutation_sym; exact P1 | exact P]. }
  pose proof (Permutation_Forall P T1) as T1'.
  pose proof (Permutation_Forall P2 T2) as T2'.
  inversion T1' as [|? ? _ T1'']; subst. inversion T1'' as [|? ? Hlr _]; subst.
  inversion T2' as [|? ? _ T2'']; subst.
  split; [apply Cmp; exact Hlr|].
  eapply Forall_impl; [|exact T2'']. intros n Hn. apply Cmp. exact Hn.
Qed.

Lemma merge_fuel_lowest_first : forall fuel q,
    (pq_size q <= fuel)%nat -> (1 <= pq_size q)%nat ->
    lowest_first (pq_size q - 1) q (merge_fuel fuel q).
Proof.
  induction fuel as [|fuel IH]; intros q Hfuel Hsize; [lia|].
  destruct (Nat.ltb_spec 1 (pq_size q)) as [Hlt|Hge].
  - rewrite merge_fuel_round by exact Hlt.
    pose proof (merge_round_size q Hlt) as Hs.
    destruct (round_takes_lowest q Hlt) as [H1 H2].
    replace (pq_size q - 1)%nat with (S (pq_size (merge_round q) - 1)) by lia.
    apply lowest_first_round; [exact Hlt | exact H1 | exact H2|].
    apply IH; lia.
  - rewrite merge_fuel_done by lia.
    replace (pq_size q - 1)%nat with 0%nat by lia.
    apply lowest_first_stop. lia.
Qed.

Lemma fill_queue_size : forall freqMap,
    pq_size (fill_queue freqMap) = length freqMap.
Proof.
  intros freqMap.
  rewrite pq_size_elems, (Permutation_length (fill_queue_elems freqMap)).
  apply length_map.
Qed.

Lemma merge_all_single : forall freqMap,
    freqMap <> [] ->
    pq_elems (merge_all (fill_queue freqMap)) = [build_tree freqMap].
Proof.
  intros freqMap Hne.
  pose proof (fill_queue_elems freqMap) as P.
  assert (Hfull : Forall full (pq_elems (fill_queue freqMap))).
  { apply (Permutation_Forall (Permutation_sym P)).
    apply Forall_forall. intros n Hn. apply in_map_iff in Hn.
    destruct Hn as [pair [<- _]]. constructor. }
  assert (Hsize : (1 <= pq_size (fill_queue freqMap))%nat).
  { rewrite fill_queue_size. destruct freqMap; [congruence | simpl; lia]. }
  destruct (merge_fuel_tree (pq_size (fill_queue freqMap)) (fill_queue freqMap))
    as [t [Et _]]; [lia | exact Hsize | exact Hfull |].
  unfold build_tree, merge_all. rewrite (pq_top_single _ _ Et). exact Et.
Qed.

Lemma encode_ext : forall (t1 t2 : list (ascii * list ascii)) input,
    (forall c, In c input -> map_at [] c t1 = map_at [] c t2) ->
    encode t1 input = encode t2 input.
Proof.
  intros t1 t2. induction input as [|c input IH]; intros H; [reflexivity|].
  simpl. rewrite (H c (or_introl eq_refl)), IH; [reflexivity|].
  intros c' Hc'. apply H. right. exact Hc'.
Qed.

(** The codes looked up for the input do not depend on what the code
    table held before [buildCode]. *)
Lemma stale_table_harmless : forall input (m0 : list (ascii * list ascii)),
    input <> [] ->
    encode (assign_all (codes (build_tree (count_freq input)) []) m0) input =
    encode (table_of (build_tree (count_freq input))) input.
Proof.
  intros input m0 Hne.
  destruct (build_tree_leaves input Hne) as [_ [Hnd Hin]].
  apply encode_ext. intros c Hc. apply Hin in Hc.
  rewrite <- (codes_keys (build_tree (count_freq input)) []) in Hnd, Hc.
  apply in_map_iff in Hc. destruct Hc as [[c' s] [Ec Hc]]. simpl in Ec. subst c'.
  unfold map_at, table_of.
  rewrite (assign_all_find _ m0 c s Hnd Hc), (assign_all_find _ [] c s Hnd Hc).
  reflexivity.
Qed.

(** Whatever state the object is in, [compress] writes the file that
    it writes on a new object. *)
Lemma compress_on_any_object : forall h0 input,
    fst (compress_on h0 input) = compress input.
Proof.
  intros h0 input. destruct input as [|c0 rest]; [reflexivity|].
  set (input := c0 :: rest).
  assert (Hne : input <> []) by discriminate.
  rewrite (compress_nonempty input Hne). cbv zeta.
  rewrite compress_object_table, compress_object_root.
  unfold compress_on.
  pose proof (count_freq_nonempty input Hne) as Hc.
  destruct (count_freq input) as [|p l] eqn:E; [congruence|]. rewrite <- E.
  cbv zeta. rewrite buildCode_table, buildCode_root. cbn [huffmanCode root set_root].
  rewrite (stale_table_harmless input (huffmanCode h0) Hne).
  destruct (pack (pad (encode (table_of (build_tree (count_freq input))) input)));
    reflexivity.
Qed.
End MergeOrder.

(** C3 (determinism and tie-break), as the code has it, for a fixed
    iteration order of the map and a fixed queue.  Called on an object
    in any state, also one left by an earlier call, [compress] writes
    the same file for the same input.  For an input with d distinct
    bytes, the merging loop makes d - 1 rounds from the queue of the
    leaves and stops on the queue that holds the tree alone; every
    round takes two nodes of lowest weight, the first no heavier than
    the second and the second no heavier than any node left.
    [Compare] looks at the weights alone, and puts two nodes of equal
    weight in no order, whatever their bytes. *)
Theorem C3_order_by_weight_only :
  forall (UM : UnorderedMapOrder) (PQ : PriorityQueue) (input : list ascii),
    input <> [] ->
    let q0 := fill_queue (count_freq input) in
    (forall h0, fst (compress_on h0 input) = compress input) /\
    (forall h0, fst (compress_on (snd (compress_on h0 input)) input)
                = fst (compress_on h0 input)) /\
    lowest_first (length (count_freq input) - 1) q0 (merge_all q0) /\
    pq_elems (merge_all q0) = [build_tree (count_freq input)] /\
    (forall a b, Compare a b = true <-> freq_of b < freq_of a) /\
    (forall a b, freq_of a = freq_of b -> Compare a b = false /\ Compare b a = false).
Proof.
  intros UM PQ input Hne q0.
  pose proof (count_freq_nonempty input Hne) as Hfm.
  assert (Cmp : forall a b, Compare a b = false <-> freq_of a <= freq_of b).
  { intros a b. unfold Compare. rewrite Z.gtb_ltb. apply Z.ltb_ge. }
  split; [intros h0; apply compress_on_any_object|].
  split; [intros h0; now rewrite !compress_on_any_object|].
  split.
  - unfold q0, merge_all.
    rewrite <- (fill_queue_size (count_freq input)).
    apply merge_fuel_lowest_first; [lia|].
    rewrite fill_queue_size. destruct (count_freq input); [congruence | simpl; lia].
  - split; [apply merge_all_single; exact Hfm|]. split.
    + intros a b. unfold Compare. rewrite Z.gtb_ltb. apply Z.ltb_lt.
    + intros a b E. split; apply Cmp; lia.
Qed.

Lemma C3_order_by_weight_only_witness :
  file_of "abracadabra" <> [] /\
  (@lowest_first list_queue 4
     (@fill_queue latest_first list_queue (count_freq (file_of "abracadabra")))
     (@merge_all list_queue
        (@fill_queue latest_first list_queue (count_freq (file_of "abracadabra"))))) /\
  fst (@compress_on latest_first list_queue
         (snd (@compress_on latest_first list_queue HuffmanCoding_new
                            (file_of "abracadabra")))
         (file_of "abracadabra"))
  = fst (@compress_on latest_first list_queue HuffmanCoding_new (file_of "abracadabra")).
Proof.
  assert (H : file_of "abracadabra" <> []) by discriminate.
  split; [exact H|].
  destruct (C3_order_by_weight_only latest_first list_queue _ H)
    as [_ [R [L _]]].
  split; [exact L | exact (R HuffmanCoding_new)].
Defined.

(** C3 as the specification states it fails: the leaves of 'a' and of
    'b', both of weight 1, are in no order under [Compare], where the
    tie-break of the specification takes 'b' after 'a'.  On the input
    "ab", with the map iterated latest first, the leaf of 'b' is taken
    first and becomes the left child, before the leaf of 'a' of the
    same weight and the smaller byte, and the artifact starts with the
    tree '0' '1' 'b' '1' 'a'. *)
Lemma C3_counterexample :
  Compare (new_Node "b" 1) (new_Node "a" 1) = false /\
  Compare (new_Node "a" 1) (new_Node "b" 1) = false /\
  spec_after (new_Node "b" 1) (new_Node "a" 1) = true /\
  @build_tree latest_first list_queue (count_freq (file_of "ab")) =
    Node nul 2 (new_Node "b" 1) (new_Node "a" 1) /\
  @compress latest_first list_queue (file_of "ab") =
    Done (file_of "01b1a" ++ [newline; "006"; "128"]).
Proof.
  repeat split; reflexivity.
Qed.

(** * Further properties of the code *)

(** ** Serialising and packing *)

Lemma writeTree_reread : forall n, writeTree (reread n) = writeTree n.
Proof.
  induction n as [|c f l IHl r IHr]; [reflexivity|].
  destruct (is_leaf (Node c f l r)) eqn:E.
  - destruct l; [|discriminate]. destruct r; [|discriminate]. reflexivity.
  - rewrite reread_inner by exact E.
    pose proof (reread_is_leaf (Node c f l r)) as E'.
    rewrite E, reread_inner in E' by exact E.
    assert (W : forall k g a b, is_leaf (Node k g a b) = false ->
                writeTree (Node k g a b) = "0" :: writeTree a ++ writeTree b).
    { intros k g a b H. destruct a; [destruct b; [discriminate|]|]; reflexivity. }
    rewrite (W _ _ _ _ E), (W _ _ _ _ E'), IHl, IHr. reflexivity.
Qed.

(** X1 (tree serialisation round trip): for a tree in which every node
    has both children or none, [readTree] applied to what [writeTree]
    wrote, followed by anything, gives back the tree with its shape and
    its leaf symbols (weights become 0) and leaves the stream exactly
    at what followed; the tree read has the same leaves, the same code
    table and the same serialisation. *)
Theorem X1_readTree_inverts_writeTree :
  forall (tree : NodePtr) (rest : list ascii),
    full tree ->
    readTree (open (writeTree tree ++ rest)) = (reread tree, open rest) /\
    leaves (reread tree) = leaves tree /\
    table_of (reread tree) = table_of tree /\
    writeTree (reread tree) = writeTree tree.
Proof.
  intros tree rest H.
  split; [apply readTree_writeTree; exact H|].
  split; [apply leaves_reread|].
  split; [apply table_of_reread | apply writeTree_reread].
Qed.

Lemma X1_readTree_inverts_writeTree_witness :
  full (Node nul 2 (new_Node "a" 1) (new_Node "b" 1)) /\
  readTree (open (file_of "01a1b" ++ file_of "xyz")) =
    (Node nul 0 (new_Node "a" 0) (new_Node "b" 0), open (file_of "xyz")).
Proof.
  assert (H : full (Node nul 2 (new_Node "a" 1) (new_Node "b" 1)))
    by (repeat constructor).
  split; [exact H|].
  exact (proj1 (X1_readTree_inverts_writeTree _ (file_of "xyz") H)).
Defined.

Lemma bitset_of_to_string : forall c,
    bitset_of_string (bitset_to_string c) = Some (N_of_ascii c).
Proof.
  intros [[|] [|] [|] [|] [|] [|] [|] [|]]; reflexivity.
Qed.

Lemma pack_fuel_unpacked : forall payload fuel,
    (length payload <= fuel)%nat ->
    pack_fuel fuel (flat_map bitset_to_string payload) = Some payload.
Proof.
  induction payload as [|c payload IH]; intros fuel Hfuel.
  - destruct fuel; reflexivity.
  - destruct fuel as [|fuel]; [simpl in Hfuel; lia|].
    cbn [flat_map].
    rewrite pack_fuel_step
      by (destruct c as [b0 b1 b2 b3 b4 b5 b6 b7]; discriminate).
    assert (L : length (bitset_to_string c) = 8%nat) by apply bitset_to_string_length.
    rewrite firstn_app, skipn_app, L, Nat.sub_diag, firstn_O, app_nil_r.
    rewrite firstn_all2 by lia. rewrite skipn_all2 by lia. cbn [skipn app].
    rewrite bitset_of_to_string, ascii_N_embedding.
    rewrite IH by (simpl in Hfuel; lia). reflexivity.
Qed.

(** X2 (bit packing round trip): the packing loop of [compress] and
    the unpacking loop of [decompress] are inverse to each other:
    packing the bits unpacked from any bytes gives the bytes back, and
    unpacking the bytes packed from a string of '0' and '1' characters
    whose length is a multiple of 8 gives the string back, one byte for
    eight characters. *)
Theorem X2_pack_and_unpack_are_inverse :
  (forall payload : list ascii,
      pack (flat_map bitset_to_string payload) = Some payload) /\
  (forall encoded : list ascii,
      Forall is_bit encoded ->
      (length encoded mod 8 = 0)%nat ->
      exists payload,
        pack encoded = Some payload /\
        flat_map bitset_to_string payload = encoded /\
        (8 * length payload = length encoded)%nat).
Proof.
  split.
  - intros payload. unfold pack. apply pack_fuel_unpacked.
    rewrite length_flat_map.
    induction payload as [|c payload IH]; simpl; [lia|].
    rewrite bitset_to_string_length. lia.
  - intros encoded Hbits Hmod.
    assert (Hk : length encoded = (8 * (length encoded / 8))%nat).
    { pose proof (Nat.div_mod_eq (length encoded) 8). lia. }
    destruct (pack_fuel_chunks (length encoded / 8) encoded (length encoded))
      as [payload [E1 [E2 E3]]]; [exact Hk | exact Hbits | lia |].
    exists payload. unfold pack. split; [exact E1|]. split; [exact E2 | lia].
Qed.

Lemma X2_pack_and_unpack_are_inverse_witness :
  pack (flat_map bitset_to_string (file_of "Hi")) = Some (file_of "Hi") /\
  Forall is_bit (file_of "0100100001101001") /\
  (length (file_of "0100100001101001") mod 8 = 0)%nat /\
  exists payload,
    pack (file_of "0100100001101001") = Some payload /\
    flat_map bitset_to_string payload = file_of "0100100001101001" /\
    (8 * length payload = length (file_of "0100100001101001"))%nat.
Proof.
  assert (Hb : Forall is_bit (file_of "0100100001101001"))
    by (repeat constructor; ((left; reflexivity) || (right; reflexivity))).
  assert (Hm : (length (file_of "0100100001101001") mod 8 = 0)%nat) by reflexivity.
  split; [exact (proj1 X2_pack_and_unpack_are_inverse (file_of "Hi"))|].
  split; [exact Hb|]. split; [exact Hm|].
  exact (proj2 X2_pack_and_unpack_are_inverse _ Hb Hm).
Defined.

(** X3 (padding): the pad count [compress] computes is between 0 and
    7, the padded bit string is the bit string followed by that many
    '0' characters and has a multiple of 8 characters, and the guard of
    [decompress] applied to the padded string with that pad count gives
    the bit string back. *)
Theorem X3_padding_is_undone :
  forall encoded : list ascii,
    0 <= extra_bits encoded <= 7 /\
    pad encoded = encoded ++ repeat "0" (Z.to_nat (extra_bits encoded)) /\
    (length (pad encoded) mod 8 = 0)%nat /\
    drop_padding (extra_bits encoded) (pad encoded) = encoded.
Proof.
  intros encoded.
  split; [apply extra_bits_range|]. split; [apply pad_app|].
  split; [|apply drop_padding_pad].
  destruct (pad_length_chunks encoded) as [k ->].
  rewrite Nat.mul_comm. apply Nat.Div0.mod_mul.
Qed.

(** ** compress: success, frequencies, tree, code table *)

(** X4 (compress succeeds on every non-empty input): [compress] ends
    on the empty-input error exactly for the empty input; for every
    other input it returns normally with an artifact.  In particular
    no bit string it builds makes [bitset] throw. *)
Theorem X4_compress_succeeds_unless_empty :
  forall (UM : UnorderedMapOrder) (PQ : PriorityQueue) (input : list ascii),
    (input = [] /\ compress input = Failed ErrInputEmpty) \/
    (input <> [] /\ exists artifact, compress input = Done artifact).
Proof.
  intros UM PQ [|c input].
  - left. split; reflexivity.
  - right. split; [discriminate|].
    destruct (compress_layout (c :: input)) as [payload [E _]]; [discriminate|].
    eexists. exact E.
Qed.

Lemma int_wrap_small : forall z, - 2 ^ 31 <= z < 2 ^ 31 -> int_wrap z = z.
Proof.
  intros z H. unfold int_wrap. rewrite Z.mod_small; lia.
Qed.

Lemma map_at_count_char : forall (m : list (ascii * Z)) a c,
    map_at 0 c (count_char m a) =
    if ascii_dec a c then int_add (map_at 0 c m) 1 else map_at 0 c m.
Proof.
  intros m a c. unfold count_char, map_at at 1.
  destruct (ascii_dec a c) as [->|Hne].
  - now rewrite map_find_set_same.
  - rewrite map_find_set_other by congruence. reflexivity.
Qed.

Lemma count_from : forall input (m : list (ascii * Z)) c,
    0 <= map_at 0 c m ->
    map_at 0 c m + Z.of_nat (count_occ ascii_dec input c) < 2 ^ 31 ->
    map_at 0 c (fold_left count_char input m) =
    map_at 0 c m + Z.of_nat (count_occ ascii_dec input c).
Proof.
  induction input as [|a input IH]; intros m c H0 Hb; simpl in *; [lia|].
  pose proof (map_at_count_char m a c) as E.
  destruct (ascii_dec a c) as [->|Hne].
  - rewrite IH; rewrite E; unfold int_add; rewrite int_wrap_small; lia.
  - rewrite IH; rewrite E; lia.
Qed.

Lemma map_find_nodup : forall (V : Type) (m : list (ascii * V)) k v,
    NoDup (map fst m) -> In (k, v) m -> map_find k m = Some v.
Proof.
  intros V m. induction m as [|[k0 v0] m IH]; intros k v Hnd Hin; [destruct Hin|].
  simpl in *. inversion Hnd as [|? ? Hnotin Hnd']; subst.
  destruct Hin as [Hin|Hin].
  - inversion Hin; subst. now rewrite Ascii.eqb_refl.
  - destruct (k =? k0) eqn:E.
    + apply Ascii.eqb_eq in E. subst k0. exfalso. apply Hnotin.
      apply in_map_iff. exists (k, v). auto.
    + auto.
Qed.

Lemma count_occ_le_length : forall (input : list ascii) c,
    (count_occ ascii_dec input c <= length input)%nat.
Proof.
  intros input c. induction input as [|a input IH]; simpl; [lia|].
  destruct (ascii_dec a c); lia.
Qed.

(** An entry of the frequency map holds the number of occurrences of
    its character, as long as the input has fewer than 2^31 bytes. *)
Lemma count_freq_exact : forall input c n,
    Z.of_nat (length input) < 2 ^ 31 ->
    In (c, n) (count_freq input) ->
    n = Z.of_nat (count_occ ascii_dec input c) /\ 0 < n.
Proof.
  intros input c n Hlen Hin.
  destruct (count_freq_keys input) as [Hnd Hkeys].
  pose proof (map_find_nodup _ _ _ _ Hnd Hin) as Hfind.
  pose proof (count_occ_le_length input c) as Hle.
  assert (E : map_at 0 c (count_freq input) = Z.of_nat (count_occ ascii_dec input c)).
  { unfold count_freq. rewrite count_from; unfold map_at; simpl; lia. }
  unfold map_at in E. rewrite Hfind in E. split; [exact E|].
  assert (Hc : In c input).
  { apply Hkeys. apply in_map_iff. exists (c, n). auto. }
  apply (count_occ_In ascii_dec) in Hc. lia.
Qed.

Lemma total_count_set : forall (m : list (ascii * Z)) a v,
    total_count (map_set a v m) = total_count m - map_at 0 a m + v.
Proof.
  induction m as [|[k n] m IH]; intros a v; unfold map_at; simpl.
  - lia.
  - destruct (a =? k) eqn:E; simpl.
    + lia.
    + rewrite IH. unfold map_at. lia.
Qed.

Lemma map_at_le_total : forall (m : list (ascii * Z)) a,
    Forall (fun pair => 0 <= snd pair) m ->
    0 <= map_at 0 a m <= total_count m.
Proof.
  induction m as [|[k n] m IH]; intros a H; unfold map_at; simpl; [lia|].
  inversion H as [|? ? Hn Hm]; subst. simpl in Hn.
  specialize (IH a Hm). unfold map_at in IH.
  destruct (a =? k); lia.
Qed.

Lemma map_set_nonneg : forall (m : list (ascii * Z)) a v,
    0 <= v -> Forall (fun pair => 0 <= snd pair) m ->
    Forall (fun pair => 0 <= snd pair) (map_set a v m).
Proof.
  induction m as [|[k n] m IH]; intros a v Hv H; simpl.
  - repeat constructor. exact Hv.
  - inversion H as [|? ? Hn Hm]; subst.
    destruct (a =? k); constructor; auto.
Qed.

Lemma total_count_from : forall input (m : list (ascii * Z)),
    Forall (fun pair => 0 <= snd pair) m ->
    total_count m + Z.of_nat (length input) < 2 ^ 31 ->
    total_count (fold_left count_char input m) =
    total_count m + Z.of_nat (length input).
Proof.
  induction input as [|a input IH]; intros m Hm Hb; [simpl; lia|].
  pose proof (map_at_le_total m a Hm) as Ha.
  assert (Hadd : int_add (map_at 0 a m) 1 = map_at 0 a m + 1).
  { unfold int_add. apply int_wrap_small. simpl length in Hb. lia. }
  assert (Ht : total_count (count_char m a) = total_count m + 1).
  { unfold count_char. rewrite total_count_set, Hadd. lia. }
  cbn [fold_left]. rewrite IH.
  - rewrite Ht. simpl length. lia.
  - unfold count_char. apply map_set_nonneg; [rewrite Hadd; lia | exact Hm].
  - rewrite Ht. simpl length in Hb. lia.
Qed.

(** X5 (frequency table): for an input of fewer than 2^31 bytes, the
    frequency map built by the first loop of [compress] has one entry
    for each distinct byte of the input and no other, each entry holds
    the number of occurrences of its byte, and the counts add up to the
    length of the input. *)
Theorem X5_frequency_map_counts_occurrences :
  forall input : list ascii,
    Z.of_nat (length input) < 2 ^ 31 ->
    NoDup (map fst (count_freq input)) /\
    (forall c, In c (map fst (count_freq input)) <-> In c input) /\
    (forall c n, In (c, n) (count_freq input) ->
                 n = Z.of_nat (count_occ ascii_dec input c)) /\
    total_count (count_freq input) = Z.of_nat (length input).
Proof.
  intros input Hlen.
  destruct (count_freq_keys input) as [Hnd Hkeys].
  split; [exact Hnd|]. split; [exact Hkeys|]. split.
  - intros c n Hin. apply (count_freq_exact input c n Hlen Hin).
  - unfold count_freq. rewrite total_count_from; simpl; [lia | constructor | lia].
Qed.

Lemma X5_frequency_map_counts_occurrences_witness :
  Z.of_nat (length (file_of "abracadabra")) < 2 ^ 31 /\
  count_freq (file_of "abracadabra") =
    [("a", 5); ("b", 2); ("r", 2); ("c", 1); ("d", 1)] /\
  total_count (count_freq (file_of "abracadabra")) =
    Z.of_nat (length (file_of "abracadabra")).
Proof.
  assert (H : Z.of_nat (length (file_of "abracadabra")) < 2 ^ 31) by reflexivity.
  split; [exact H|]. split; [reflexivity|].
  exact (proj2 (proj2 (proj2 (X5_frequency_map_counts_occurrences _ H)))).
Defined.

Lemma nodup_ascii_length : forall l : list ascii, NoDup l -> (length l <= 256)%nat.
Proof.
  intros l H.
  assert (Hincl : incl l (map ascii_of_nat (seq 0 256))).
  { intros a _. apply in_map_iff. exists (nat_of_ascii a).
    split; [apply ascii_nat_embedding|].
    apply in_seq. pose proof (nat_ascii_bounded a). lia. }
  pose proof (NoDup_incl_length H Hincl) as L.
  rewrite length_map, length_seq in L. exact L.
Qed.

Lemma full_leaves_positive : forall n, full n -> (1 <= length (leaves n))%nat.
Proof.
  induction 1 as [c f|c f l r Hl IHl Hr IHr]; [simpl; lia|].
  rewrite leaves_inner by (destruct Hl; reflexivity).
  rewrite length_app. lia.
Qed.

Lemma full_node_count : forall n,
    full n -> node_count n = 2 * Z.of_nat (length (leaves n)) - 1.
Proof.
  induction 1 as [c f|c f l r Hl IHl Hr IHr]; [reflexivity|].
  rewrite leaves_inner by (destruct Hl; reflexivity).
  cbn [node_count]. rewrite length_app, IHl, IHr. lia.
Qed.

Lemma full_height : forall n,
    full n -> 0 <= height n <= Z.of_nat (length (leaves n)) - 1.
Proof.
  induction 1 as [c f|c f l r Hl IHl Hr IHr]; [simpl; lia|].
  rewrite leaves_inner by (destruct Hl; reflexivity).
  pose proof (full_leaves_positive _ Hl). pose proof (full_leaves_positive _ Hr).
  cbn [height]. rewrite length_app. lia.
Qed.

Lemma full_writeTree_length : forall n,
    full n -> (length (writeTree n) + 1 = 3 * length (leaves n))%nat.
Proof.
  induction 1 as [c f|c f l r Hl IHl Hr IHr]; [reflexivity|].
  rewrite leaves_inner by (destruct Hl; reflexivity).
  replace (writeTree (Node c f l r)) with ("0" :: writeTree l ++ writeTree r)
    by (destruct Hl; reflexivity).
  simpl length. rewrite !length_app. lia.
Qed.

Section TreeFacts.
Context {UM : UnorderedMapOrder} {PQ : PriorityQueue}.

(** The number of distinct bytes is the number of leaves. *)
Lemma build_tree_leaf_count : forall input,
    input <> [] ->
    length (leaves (build_tree (count_freq input))) = length (count_freq input) /\
    (1 <= length (count_freq input) <= 256)%nat.
Proof.
  intros input Hne.
  destruct (build_tree_full (count_freq input) (count_freq_nonempty _ Hne)) as [Hf P].
  destruct (count_freq_keys input) as [Hnd _].
  pose proof (Permutation_length P) as L. rewrite length_map in L.
  split; [exact L|].
  pose proof (nodup_ascii_length _ Hnd) as B. rewrite length_map in B.
  pose proof (full_leaves_positive _ Hf). lia.
Qed.

End TreeFacts.

(** X6 (shape of the tree): for a non-empty input with d distinct byte
    values, the tree left in the queue by the merging loop has, at
    every node, both children or none; its leaves hold the distinct
    bytes of the input, each once; it has 2d - 1 nodes, at most 511,
    and its serialisation by [writeTree] takes 3d - 1 bytes. *)
Theorem X6_tree_has_one_leaf_per_distinct_byte :
  forall (UM : UnorderedMapOrder) (PQ : PriorityQueue) (input : list ascii),
    input <> [] ->
    let tree := build_tree (count_freq input) in
    let d := Z.of_nat (length (count_freq input)) in
    full tree /\
    NoDup (leaves tree) /\
    (forall c, In c (leaves tree) <-> In c input) /\
    node_count tree = 2 * d - 1 /\
    node_count tree <= 511 /\
    Z.of_nat (length (writeTree tree)) = 3 * d - 1.
Proof.
  intros UM PQ input Hne tree d.
  destruct (build_tree_leaves input Hne) as [Hf [Hnd Hin]].
  fold tree in Hf, Hnd, Hin.
  destruct (build_tree_leaf_count input Hne) as [L B].
  fold tree in L.
  pose proof (full_node_count _ Hf) as N. rewrite L in N.
  pose proof (full_writeTree_length _ Hf) as W. rewrite L in W.
  repeat split; try assumption; try apply Hin; unfold d; lia.
Qed.

Lemma X6_tree_has_one_leaf_per_distinct_byte_witness :
  file_of "abracadabra" <> [] /\
  node_count (build_tree (count_freq (file_of "abracadabra"))) = 9 /\
  Z.of_nat (length (writeTree (build_tree (count_freq (file_of "abracadabra"))))) = 14.
Proof.
  assert (H : file_of "abracadabra" <> []) by discriminate.
  split; [exact H|].
  destruct (X6_tree_has_one_leaf_per_distinct_byte insertion_order list_queue _ H)
    as [_ [_ [_ [N [_ W]]]]].
  split; [exact N | exact W].
Defined.

Lemma total_weight_perm : forall l l',
    Permutation l l' -> total_weight l = total_weight l'.
Proof.
  induction 1; simpl; lia.
Qed.

Lemma leaf_pairs_inner : forall c f l r,
    is_leaf (Node c f l r) = false ->
    leaf_pairs (Node c f l r) = leaf_pairs l ++ leaf_pairs r.
Proof.
  intros c f l r H. destruct l; [destruct r; [discriminate|]|]; reflexivity.
Qed.

Lemma leaf_pairs_leaf_of : forall freqMap,
    flat_map leaf_pairs (map leaf_of freqMap) = freqMap.
Proof.
  induction freqMap as [|[c n] freqMap IH]; simpl; [reflexivity|].
  now rewrite IH.
Qed.

Lemma total_weight_leaf_of : forall freqMap,
    total_weight (map leaf_of freqMap) = total_count freqMap.
Proof.
  induction freqMap as [|[c n] freqMap IH]; simpl; [reflexivity|].
  now rewrite IH.
Qed.

Lemma sound_total_weight : forall nodes,
    Forall sound_node nodes -> 0 <= total_weight nodes.
Proof.
  induction nodes as [|n nodes IH]; intros H; unfold total_weight; simpl; [lia|].
  inversion H as [|? ? [_ [_ Hn]] Hrest]; subst.
  specialize (IH Hrest). unfold total_weight in IH. lia.
Qed.

Section Weights.
Context {UM : UnorderedMapOrder} {PQ : PriorityQueue}.

Lemma merge_fuel_weights : forall fuel q,
    (pq_size q <= fuel)%nat -> (1 <= pq_size q)%nat ->
    Forall sound_node (pq_elems q) ->
    total_weight (pq_elems q) < 2 ^ 31 ->
    exists t,
      pq_elems (merge_fuel fuel q) = [t] /\ adds_up t /\
      freq_of t = total_weight (pq_elems q) /\
      Permutation (leaf_pairs t) (flat_map leaf_pairs (pq_elems q)).
Proof.
  induction fuel as [|fuel IH]; intros q Hfuel Hsize Hsound Hbound; [lia|].
  cbn [merge_fuel].
  destruct (Nat.ltb_spec 1 (pq_size q)) as [Hlt|Hge].
  - pose proof (pq_pop_two q Hlt) as P.
    set (l := pq_top q) in *. set (r := pq_top (pq_pop q)) in *.
    set (q2 := pq_pop (pq_pop q)) in *.
    pose proof (Permutation_Forall P Hsound) as Hsound'.
    inversion Hsound' as [|? ? [Nl [Al Pl]] Hsound'']; subst.
    inversion Hsound'' as [|? ? [Nr [Ar Pr]] Srest]; subst.
    pose proof (total_weight_perm _ _ P) as W. cbn [total_weight fold_right] in W.
    fold (total_weight (pq_elems q2)) in W.
    pose proof (sound_total_weight _ Srest) as Wrest.
    assert (Hadd : int_add (freq_of l) (freq_of r) = freq_of l + freq_of r).
    { unfold int_add. apply int_wrap_small. lia. }
    set (merged := Node nul (int_add (freq_of l) (freq_of r)) l r).
    pose proof (pq_elems_push merged q2) as Ppush.
    assert (Hlen : length (pq_elems (pq_push merged q2)) = (pq_size q - 1)%nat).
    { apply Permutation_length in Ppush, P. rewrite Ppush.
      rewrite pq_size_elems, P. simpl. lia. }
    assert (Wq' : total_weight (pq_elems (pq_push merged q2)) = total_weight (pq_elems q)).
    { rewrite (total_weight_perm _ _ Ppush). cbn [total_weight fold_right].
      fold (total_weight (pq_elems q2)). unfold merged. cbn [freq_of].
      rewrite Hadd. lia. }
    destruct (IH (pq_push merged q2)) as [t [Et [At [Ft Pt]]]].
    + rewrite pq_size_elems. lia.
    + rewrite pq_size_elems. lia.
    + apply (Permutation_Forall (Permutation_sym Ppush)).
      constructor; [|exact Srest].
      split; [discriminate|]. split.
      * constructor; [exact Al | exact Ar | exact Hadd].
      * unfold merged. cbn [freq_of]. rewrite Hadd. lia.
    + rewrite Wq'. exact Hbound.
    + exists t. split; [exact Et|]. split; [exact At|].
      split; [rewrite Ft; exact Wq'|].
      eapply Permutation_trans; [exact Pt|].
      eapply Permutation_trans; [apply Permutation_flat_map, Ppush|].
      eapply Permutation_trans; [|apply Permutation_flat_map, Permutation_sym, P].
      cbn [flat_map]. unfold merged.
      rewrite leaf_pairs_inner by (destruct l; [congruence | reflexivity]).
      rewrite <- app_assoc. apply Permutation_refl.
  - rewrite pq_size_elems in *.
    destruct (pq_elems q) as [|t [|t' rest]] eqn:E; simpl in *; try lia.
    exists t. inversion Hsound as [|? ? [_ [At _]] _]; subst.
    rewrite app_nil_r. split; [reflexivity|]. split; [exact At|].
    split; [lia | apply Permutation_refl].
Qed.

Lemma build_tree_weights : forall input,
    input <> [] -> Z.of_nat (length input) < 2 ^ 31 ->
    let tree := build_tree (count_freq input) in
    adds_up tree /\
    freq_of tree = Z.of_nat (length input) /\
    Permutation (leaf_pairs tree) (count_freq input).
Proof.
  intros input Hne Hlen tree.
  pose proof (fill_queue_elems (count_freq input)) as P.
  assert (T : total_count (count_freq input) = Z.of_nat (length input)).
  { unfold count_freq. rewrite total_count_from; simpl; [lia | constructor | lia]. }
  assert (Hsound : Forall sound_node (pq_elems (fill_queue (count_freq input)))).
  { apply (Permutation_Forall (Permutation_sym P)).
    apply Forall_forall. intros n Hn. apply in_map_iff in Hn.
    destruct Hn as [[c k] [<- Hin]].
    split; [discriminate|]. split; [constructor|].
    apply (count_freq_exact input c k Hlen Hin). }
  assert (Hsize : (1 <= pq_size (fill_queue (count_freq input)))%nat).
  { rewrite pq_size_elems, (Permutation_length P), length_map.
    pose proof (count_freq_nonempty _ Hne).
    destruct (count_freq input); [congruence | simpl; lia]. }
  assert (W : total_weight (pq_elems (fill_queue (count_freq input))) =
              Z.of_nat (length input)).
  { rewrite (total_weight_perm _ _ P), total_weight_leaf_of. exact T. }
  destruct (merge_fuel_weights (pq_size (fill_queue (count_freq input)))
                               (fill_queue (count_freq input)))
    as [t [Et [At [Ft Pt]]]]; [lia | exact Hsize | exact Hsound | lia |].
  unfold tree, build_tree, merge_all. rewrite (pq_top_single _ _ Et).
  split; [exact At|]. split; [lia|].
  eapply Permutation_trans; [exact Pt|].
  eapply Permutation_trans; [apply Permutation_flat_map, P|].
  rewrite leaf_pairs_leaf_of. apply Permutation_refl.
Qed.
End Weights.

(** X7 (weights of the tree): for a non-empty input of fewer than 2^31
    bytes, the weight of the root is the length of the input, the
    weight of every node with children is the sum of the weights of its
    two children, and every leaf carries the number of occurrences of
    its byte in the input. *)
Theorem X7_root_weight_is_input_length :
  forall (UM : UnorderedMapOrder) (PQ : PriorityQueue) (input : list ascii),
    input <> [] ->
    Z.of_nat (length input) < 2 ^ 31 ->
    let tree := build_tree (count_freq input) in
    freq_of tree = Z.of_nat (length input) /\
    adds_up tree /\
    (forall c f, In (c, f) (leaf_pairs tree) ->
                 f = Z.of_nat (count_occ ascii_dec input c)).
Proof.
  intros UM PQ input Hne Hlen tree.
  destruct (build_tree_weights input Hne Hlen) as [A [F P]].
  fold tree in A, F, P.
  split; [exact F|]. split; [exact A|].
  intros c f Hin.
  apply (Permutation_in _ P) in Hin.
  apply (count_freq_exact input c f Hlen Hin).
Qed.

Lemma X7_root_weight_is_input_length_witness :
  file_of "abracadabra" <> [] /\
  Z.of_nat (length (file_of "abracadabra")) < 2 ^ 31 /\
  freq_of (build_tree (count_freq (file_of "abracadabra"))) = 11.
Proof.
  assert (H : file_of "abracadabra" <> []) by discriminate.
  assert (L : Z.of_nat (length (file_of "abracadabra")) < 2 ^ 31) by reflexivity.
  split; [exact H|]. split; [exact L|].
  exact (proj1 (X7_root_weight_is_input_length insertion_order list_queue _ H L)).
Defined.

Lemma assign_all_keys : forall (V : Type) (entries m : list (ascii * V)),
    NoDup (map fst m) ->
    NoDup (map fst (assign_all entries m)) /\
    (forall k, In k (map fst (assign_all entries m)) <->
               In k (map fst m) \/ In k (map fst entries)).
Proof.
  intros V. induction entries as [|[k0 v0] entries IH]; intros m Hnd; simpl.
  - split; [exact Hnd | tauto].
  - pose proof (map_set_keys m k0 v0) as K.
    assert (Hnd' : NoDup (map fst (map_set k0 v0 m))).
    { rewrite K. destruct (in_dec ascii_dec k0 (map fst m)) as [Hin|Hnin]; [exact Hnd|].
      apply NoDup_app; [exact Hnd | repeat constructor; auto |].
      intros x Hx [Hx'|[]]. subst. tauto. }
    destruct (IH _ Hnd') as [H1 H2]. split; [exact H1|].
    intros k. rewrite H2, K.
    destruct (in_dec ascii_dec k0 (map fst m)) as [Hin|Hnin].
    + split; [tauto|]. intros [H|[H|H]]; subst; auto.
    + rewrite in_app_iff. simpl. tauto.
Qed.

Lemma table_of_keys : forall tree,
    NoDup (map fst (table_of tree)) /\
    (forall c, In c (map fst (table_of tree)) <-> In c (leaves tree)).
Proof.
  intros tree. unfold table_of.
  destruct (assign_all_keys _ (codes tree []) [] (NoDup_nil _)) as [H1 H2].
  split; [exact H1|]. intros c. rewrite H2, codes_keys. simpl. tauto.
Qed.

Lemma table_of_entries : forall tree c s,
    NoDup (leaves tree) ->
    (In (c, s) (table_of tree) <-> In (c, s) (codes tree [])).
Proof.
  intros tree c s Hnd. split.
  - intros H. apply assign_all_in in H. destruct H as [H|[]]. exact H.
  - intros H. apply map_find_in. apply assign_all_find; [|exact H].
    rewrite codes_keys. exact Hnd.
Qed.

Lemma leaf_at_root_leaf : forall tree s c,
    full tree -> leaf_at tree s c ->
    (s = [] <-> length (leaves tree) = 1%nat).
Proof.
  intros tree s c Hf Hl. split.
  - intros ->. inversion Hl; subst. reflexivity.
  - intros L. destruct Hf as [k f|k f l r Fl Fr].
    + inversion Hl as [| ? ? ? ? ? ? Hn | ? ? ? ? ? ? Hn]; subst;
        [reflexivity | inversion Hn | inversion Hn].
    + rewrite leaves_inner in L by (destruct Fl; reflexivity).
      rewrite length_app in L.
      pose proof (full_leaves_positive _ Fl). pose proof (full_leaves_positive _ Fr). lia.
Qed.

(** X8 (code table): for a non-empty input, the code table filled by
    [buildCode] has exactly one entry for each distinct byte of the
    input; the code of a byte is the way from the root to the leaf
    that holds it ('0' left, '1' right); and a code is empty exactly
    when the input has a single distinct byte. *)
Theorem X8_code_table_covers_the_input :
  forall (UM : UnorderedMapOrder) (PQ : PriorityQueue) (input : list ascii),
    input <> [] ->
    let h := compress_object input in
    NoDup (map fst (huffmanCode h)) /\
    (forall c, In c (map fst (huffmanCode h)) <-> In c input) /\
    (forall c s, In (c, s) (huffmanCode h) -> leaf_at (root h) s c) /\
    (forall c s, In (c, s) (huffmanCode h) ->
                 (s = [] <-> length (count_freq input) = 1%nat)).
Proof.
  intros UM PQ input Hne h. unfold h.
  rewrite compress_object_table, compress_object_root.
  destruct (build_tree_leaves input Hne) as [Hf [Hnd Hin]].
  destruct (build_tree_leaf_count input Hne) as [L _].
  destruct (table_of_keys (build_tree (count_freq input))) as [K1 K2].
  split; [exact K1|]. split.
  - intros c. rewrite K2. apply Hin.
  - split.
    + intros c s H. apply table_of_in. exact H.
    + intros c s H. apply table_of_in in H. rewrite <- L.
      apply (leaf_at_root_leaf _ s c Hf H).
Qed.

Lemma X8_code_table_covers_the_input_witness :
  file_of "abracadabra" <> [] /\
  huffmanCode (compress_object (file_of "abracadabra")) =
    [("a", file_of "0"); ("c", file_of "100"); ("d", file_of "101");
     ("b", file_of "110"); ("r", file_of "111")] /\
  NoDup (map fst (huffmanCode (compress_object (file_of "abracadabra")))).
Proof.
  assert (H : file_of "abracadabra" <> []) by discriminate.
  split; [exact H|]. split; [reflexivity|].
  exact (proj1 (X8_code_table_covers_the_input insertion_order list_queue _ H)).
Defined.

(** ** The statistics of buildCode *)

Lemma buildCode_node : forall c f l r str depth h,
    buildCode (Node c f l r) str depth h =
    buildCode r (str ++ ["1"]) (int_add depth 1)
      (buildCode l (str ++ ["0"]) (int_add depth 1)
         (if is_leaf (Node c f l r) then set_code c str (visit depth h)
          else visit depth h)).
Proof.
  intros c f l r str depth h. destruct l; [destruct r|]; reflexivity.
Qed.

Lemma node_count_nonneg : forall n, 0 <= node_count n.
Proof. induction n; cbn [node_count]; lia. Qed.

Lemma height_bounds : forall n, -1 <= height n < node_count n.
Proof.
  induction n as [|c f l IHl r IHr]; cbn [height node_count]; [lia|].
  pose proof (node_count_nonneg l). pose proof (node_count_nonneg r). lia.
Qed.

Lemma height_non_null : forall n, n <> nullptr -> 0 <= height n.
Proof.
  intros [|c f l r] H; [congruence|]. cbn [height].
  pose proof (height_bounds l). lia.
Qed.

Lemma buildCode_treeNodes : forall n str depth h,
    0 <= treeNodes h -> treeNodes h + node_count n < 2 ^ 31 ->
    treeNodes (buildCode n str depth h) = treeNodes h + node_count n.
Proof.
  induction n as [|c f l IHl r IHr]; intros str depth h H0 Hb; [simpl; lia|].
  pose proof (node_count_nonneg l). pose proof (node_count_nonneg r).
  cbn [node_count] in Hb.
  rewrite buildCode_node.
  set (h2 := if is_leaf (Node c f l r) then set_code c str (visit depth h)
             else visit depth h).
  assert (E2 : treeNodes h2 = treeNodes h + 1).
  { unfold h2. destruct (is_leaf (Node c f l r)); cbn [treeNodes set_code visit];
      unfold int_add; apply int_wrap_small; lia. }
  rewrite IHr; rewrite IHl; rewrite ?E2; cbn [node_count]; lia.
Qed.

Lemma buildCode_maxDepth : forall n str depth h,
    0 <= depth -> depth + node_count n < 2 ^ 31 ->
    depth - 1 <= maxDepth h ->
    maxDepth (buildCode n str depth h) = Z.max (maxDepth h) (depth + height n).
Proof.
  induction n as [|c f l IHl r IHr]; intros str depth h H0 Hb Hm; [simpl; lia|].
  pose proof (node_count_nonneg l). pose proof (node_count_nonneg r).
  pose proof (height_bounds l). pose proof (height_bounds r).
  cbn [node_count] in Hb.
  rewrite buildCode_node.
  set (h2 := if is_leaf (Node c f l r) then set_code c str (visit depth h)
             else visit depth h).
  assert (E2 : maxDepth h2 = Z.max (maxDepth h) depth).
  { unfold h2. destruct (is_leaf (Node c f l r)); cbn [maxDepth set_code visit];
      destruct (depth >? maxDepth h) eqn:E;
      rewrite Z.gtb_ltb in E;
      [apply Z.ltb_lt in E | apply Z.ltb_ge in E
      |apply Z.ltb_lt in E | apply Z.ltb_ge in E]; lia. }
  assert (Ed : int_add depth 1 = depth + 1)
    by (unfold int_add; apply int_wrap_small; lia).
  rewrite Ed.
  rewrite IHr; [rewrite IHl|lia|lia|rewrite IHl]; rewrite ?E2; cbn [height]; lia.
Qed.

Lemma codes_length_le : forall n str c s,
    In (c, s) (codes n str) ->
    Z.of_nat (length s) <= Z.of_nat (length str) + height n.
Proof.
  induction n as [|k f l IHl r IHr]; intros str c s H; [destruct H|].
  destruct (is_leaf (Node k f l r)) eqn:E.
  - destruct l; [|discriminate]. destruct r; [|discriminate].
    destruct H as [H|[]]. inversion H; subst. simpl. lia.
  - rewrite codes_inner in H by exact E. cbn [height].
    apply in_app_or in H. destruct H as [H|H];
      [apply IHl in H | apply IHr in H];
      rewrite length_app in H; simpl in H; lia.
Qed.

Lemma codes_length_max : forall n str,
    n <> nullptr ->
    exists c s, In (c, s) (codes n str) /\
                Z.of_nat (length s) = Z.of_nat (length str) + height n.
Proof.
  induction n as [|k f l IHl r IHr]; intros str Hn; [congruence|].
  destruct (is_leaf (Node k f l r)) eqn:E.
  - destruct l; [|discriminate]. destruct r; [|discriminate].
    exists k, str. split; [left; reflexivity | simpl; lia].
  - rewrite codes_inner by exact E. cbn [height].
    pose proof (height_bounds l) as Bl. pose proof (height_bounds r) as Br.
    destruct (Z_le_gt_dec (height r) (height l)) as [Hle|Hgt].
    + assert (Hl : l <> nullptr).
      { intros ->. simpl in Hle. destruct r; [discriminate|].
        pose proof (height_non_null (Node ch freq r1 r2)). 
        assert (0 <= height (Node ch freq r1 r2)) by (apply H; discriminate). lia. }
      destruct (IHl (str ++ ["0"]) Hl) as [c [s [Hin Hlen]]].
      exists c, s. split; [apply in_or_app; left; exact Hin|].
      rewrite length_app in Hlen. simpl in Hlen. lia.
    + assert (Hr : r <> nullptr) by (intros ->; simpl in Hgt; lia).
      destruct (IHr (str ++ ["1"]) Hr) as [c [s [Hin Hlen]]].
      exists c, s. split; [apply in_or_app; right; exact Hin|].
      rewrite length_app in Hlen. simpl in Hlen. lia.
Qed.

(** X9 (node statistic): after [compress] of a non-empty input with d
    distinct byte values, the counter [treeNodes], which the verbose
    report prints as "Huffman Tree Nodes", is the number of nodes of
    the tree, 2d - 1, and at most 511. *)
Theorem X9_treeNodes_counts_the_nodes :
  forall (UM : UnorderedMapOrder) (PQ : PriorityQueue) (input : list ascii),
    input <> [] ->
    let h := compress_object input in
    treeNodes h = node_count (root h) /\
    treeNodes h = 2 * Z.of_nat (length (count_freq input)) - 1 /\
    1 <= treeNodes h <= 511.
Proof.
  intros UM PQ input Hne h.
  destruct (build_tree_leaves input Hne) as [Hf _].
  destruct (build_tree_leaf_count input Hne) as [L B].
  pose proof (full_node_count _ Hf) as N. rewrite L in N.
  unfold h. rewrite compress_object_root. unfold compress_object.
  rewrite buildCode_treeNodes; cbn [treeNodes set_root HuffmanCoding_new]; lia.
Qed.

Lemma X9_treeNodes_counts_the_nodes_witness :
  file_of "abracadabra" <> [] /\
  treeNodes (compress_object (file_of "abracadabra")) = 9.
Proof.
  assert (H : file_of "abracadabra" <> []) by discriminate.
  split; [exact H|].
  destruct (X9_treeNodes_counts_the_nodes insertion_order list_queue _ H) as [_ [E _]].
  exact E.
Defined.

(** X10 (depth statistic): after [compress] of a non-empty input with
    d distinct byte values, the counter [maxDepth], which the verbose
    report prints as "Max Depth", is the height of the tree and the
    length of the longest code of the code table: no code is longer and
    some code is as long; it is at most d - 1, hence at most 255. *)
Theorem X10_maxDepth_is_longest_code :
  forall (UM : UnorderedMapOrder) (PQ : PriorityQueue) (input : list ascii),
    input <> [] ->
    let h := compress_object input in
    maxDepth h = height (root h) /\
    (forall c s, In (c, s) (huffmanCode h) -> Z.of_nat (length s) <= maxDepth h) /\
    (exists c s, In (c, s) (huffmanCode h) /\ Z.of_nat (length s) = maxDepth h) /\
    0 <= maxDepth h <= Z.of_nat (length (count_freq input)) - 1 /\
    maxDepth h <= 255.
Proof.
  intros UM PQ input Hne h.
  destruct (build_tree_leaves input Hne) as [Hf [Hnd _]].
  destruct (build_tree_leaf_count input Hne) as [L B].
  pose proof (full_node_count _ Hf) as N. rewrite L in N.
  pose proof (full_height _ Hf) as Hh. rewrite L in Hh.
  assert (E : maxDepth h = height (build_tree (count_freq input))).
  { unfold h, compress_object.
    rewrite buildCode_maxDepth; cbn [maxDepth set_root HuffmanCoding_new]; lia. }
  unfold h in *. rewrite compress_object_root, compress_object_table, E.
  split; [reflexivity|]. split.
  - intros c s H. apply (table_of_entries _ c s Hnd) in H.
    apply codes_length_le in H. simpl in H. lia.
  - split; [|lia].
    destruct (codes_length_max (build_tree (count_freq input)) [] (full_not_null _ Hf))
      as [c [s [Hin Hlen]]].
    exists c, s. split; [apply (table_of_entries _ c s Hnd); exact Hin|].
    simpl in Hlen. lia.
Qed.

Lemma X10_maxDepth_is_longest_code_witness :
  file_of "abracadabra" <> [] /\
  maxDepth (compress_object (file_of "abracadabra")) = 3 /\
  height (root (compress_object (file_of "abracadabra"))) = 3.
Proof.
  assert (H : file_of "abracadabra" <> []) by discriminate.
  split; [exact H|]. split; [reflexivity|].
  destruct (X10_maxDepth_is_longest_code insertion_order list_queue _ H) as [E _].
  rewrite <- E. reflexivity.
Defined.

(** X11 (size of the artifact): for an input with d distinct byte
    values whose codes take b bits in all, the artifact has
    (3d - 1) + 2 + ceil(b / 8) bytes: the tree, the newline and the
    pad-count byte, and the payload. *)
Theorem X11_artifact_length :
  forall (UM : UnorderedMapOrder) (PQ : PriorityQueue)
         (input artifact : list ascii),
    compress input = Done artifact ->
    let d := Z.of_nat (length (count_freq input)) in
    let b := Z.of_nat (length (encode (huffmanCode (compress_object input)) input)) in
    Z.of_nat (length artifact) = (3 * d - 1) + 2 + (b + 7) / 8.
Proof.
  intros UM PQ input artifact Hc d b.
  assert (Hne : input <> []) by (intros ->; discriminate Hc).
  destruct (compress_layout input Hne) as [payload [Ec [_ El]]].
  destruct (build_tree_leaves input Hne) as [Hf _].
  destruct (build_tree_leaf_count input Hne) as [L _].
  pose proof (full_writeTree_length _ Hf) as W. rewrite L in W.
  unfold b. rewrite compress_object_table.
  set (encoded := encode (table_of (build_tree (count_freq input))) input) in *.
  pose proof (pad_length encoded) as Hp. pose proof (extra_bits_range encoded) as Hr.
  rewrite Ec in Hc. inversion Hc as [Ha]. clear Hc.
  rewrite !length_app. cbn [length].
  assert (Hdiv : (Z.of_nat (length encoded) + 7) / 8 = Z.of_nat (length payload)).
  { symmetry. apply Z.div_unique with (r := 7 - extra_bits encoded); lia. }
  rewrite Hdiv. unfold d. lia.
Qed.

Lemma X11_artifact_length_witness :
  compress (file_of "abracadabra") =
    Done (file_of "01a001c1d01b1r" ++ [newline; "001"; "n"; "138"; "220"]) /\
  Z.of_nat (length (file_of "01a001c1d01b1r" ++ [newline; "001"; "n"; "138"; "220"])) = 19.
Proof.
  assert (H : compress (file_of "abracadabra") =
              Done (file_of "01a001c1d01b1r" ++ [newline; "001"; "n"; "138"; "220"]))
    by reflexivity.
  split; [exact H|].
  exact (X11_artifact_length insertion_order list_queue _ _ H).
Defined.

(** ** Encoding and decoding *)

(** X12 (round trip): for every input with at least two distinct byte
    values, whatever the iteration order of the map and the tie order
    of the queue, [compress] returns an artifact and [decompress] of
    that artifact returns the input. *)
Theorem X12_round_trip_with_two_distinct_bytes :
  forall (UM : UnorderedMapOrder) (PQ : PriorityQueue)
         (input : list ascii) (a b : ascii),
    In a input -> In b input -> a <> b ->
    exists artifact,
      compress input = Done artifact /\ decompress artifact = Done input.
Proof.
  intros UM PQ input a b Ha Hb Hab.
  assert (Hne : input <> []) by (intros ->; destruct Ha).
  destruct (compress_layout input Hne) as [payload [Ec [Eb _]]].
  destruct (build_tree_leaves input Hne) as [Hf _].
  eexists. split; [exact Ec|].
  rewrite decompress_written by exact Hf.
  rewrite Eb, pad_byte_value, drop_padding_pad.
  apply walk_encode. exact (reread_decodable input a b Ha Hb Hab).
Qed.

Lemma X12_round_trip_with_two_distinct_bytes_witness :
  In "a" (file_of "abracadabra") /\ In "b" (file_of "abracadabra") /\ "a" <> "b" /\
  exists artifact,
    compress (file_of "abracadabra") = Done artifact /\
    decompress artifact = Done (file_of "abracadabra").
Proof.
  assert (Ha : In "a" (file_of "abracadabra")) by (left; reflexivity).
  assert (Hb : In "b" (file_of "abracadabra")) by (right; left; reflexivity).
  assert (Hab : "a" <> "b") by discriminate.
  split; [exact Ha|]. split; [exact Hb|]. split; [exact Hab|].
  exact (X12_round_trip_with_two_distinct_bytes
           insertion_order list_queue _ "a" "b" Ha Hb Hab).
Defined.

(** X13 (the decoding loop inverts the code table of any tree): for
    every tree whose root has a child and whose leaves hold distinct
    bytes, however it was built, the decoding loop of [decompress] run
    on the codes that [buildCode] assigns gives back any text written
    with the bytes of the leaves; so two different texts never have the
    same encoding. *)
Theorem X13_decoding_inverts_encoding_for_any_tree :
  forall (tree : NodePtr) (text : list ascii),
    NoDup (leaves tree) ->
    is_leaf tree = false ->
    (forall c, In c text -> In c (leaves tree)) ->
    huffmanCode (buildCode tree [] 0 HuffmanCoding_new) = table_of tree /\
    walk tree tree (encode (table_of tree) text) = Done text /\
    (forall text', (forall c, In c text' -> In c (leaves tree)) ->
                   encode (table_of tree) text' = encode (table_of tree) text ->
                   text' = text).
Proof.
  intros tree text Hnd Hinner Hin.
  split; [apply buildCode_table|].
  assert (W : forall t, (forall c, In c t -> In c (leaves tree)) ->
                        walk tree tree (encode (table_of tree) t) = Done t).
  { intros t Ht. apply walk_encode. apply table_of_decodable; assumption. }
  split; [apply W; exact Hin|].
  intros text' Hin' E.
  pose proof (W text' Hin') as W'. rewrite E, (W text Hin) in W'.
  inversion W'. reflexivity.
Qed.

Lemma X13_decoding_inverts_encoding_for_any_tree_witness :
  let tree := Node nul 0 (new_Node "x" 0) (Node nul 0 (new_Node "y" 0) (new_Node "z" 0)) in
  NoDup (leaves tree) /\ is_leaf tree = false /\
  (forall c, In c (file_of "zyxxy") -> In c (leaves tree)) /\
  walk tree tree (encode (table_of tree) (file_of "zyxxy")) = Done (file_of "zyxxy").
Proof.
  cbv zeta.
  set (tree := Node nul 0 (new_Node "x" 0) (Node nul 0 (new_Node "y" 0) (new_Node "z" 0))).
  assert (Hnd : NoDup (leaves tree)).
  { repeat constructor; simpl; intuition discriminate. }
  assert (Hi : is_leaf tree = false) by reflexivity.
  assert (Hin : forall c, In c (file_of "zyxxy") -> In c (leaves tree)).
  { intros c H. simpl in *. intuition. }
  split; [exact Hnd|]. split; [exact Hi|]. split; [exact Hin|].
  exact (proj1 (proj2 (X13_decoding_inverts_encoding_for_any_tree tree _ Hnd Hi Hin))).
Defined.

(** ** decompress on arbitrary files *)

Lemma readTree_fuel_failed : forall fuel s,
    failbit s = true ->
    readTree_fuel fuel s = (nullptr, s).
Proof.
  intros [|fuel] s H; [reflexivity|]. simpl. unfold get. rewrite H. reflexivity.
Qed.

Lemma get_none_failed : forall s s', get s = (None, s') -> failbit s' = true.
Proof.
  intros [b f] s'. unfold get. simpl.
  destruct f; [intros H; inversion H; reflexivity|].
  destruct b; intros H; inversion H; reflexivity.
Qed.

Lemma readTree_fuel_keeps_failed : forall fuel s,
    failbit s = true -> failbit (snd (readTree_fuel fuel s)) = true.
Proof.
  intros fuel s H. rewrite readTree_fuel_failed by exact H. exact H.
Qed.

(** A tree read without reaching the end of the stream is complete. *)
Lemma readTree_fuel_good_full : forall fuel s,
    (length (buf s) < fuel)%nat ->
    failbit (snd (readTree_fuel fuel s)) = false ->
    full (fst (readTree_fuel fuel s)).
Proof.
  induction fuel as [|fuel IH]; intros s Hfuel Hgood; [lia|].
  simpl in *.
  destruct (get s) as [[bit|] s1] eqn:E1.
  - pose proof (get_shorter _ _ _ E1) as [_ L1].
    destruct (bit =? "1").
    + destruct (get s1) as [[c|] s2] eqn:E2; simpl in *.
      * constructor.
      * apply get_none_failed in E2. congruence.
    + pose proof (readTree_fuel_shorter fuel s1) as L2.
      pose proof (IH s1) as IH1.
      destruct (readTree_fuel fuel s1) as [l s2] eqn:R1. simpl in L2, IH1.
      pose proof (IH s2) as IH2.
      pose proof (readTree_fuel_keeps_failed fuel s2) as K.
      destruct (readTree_fuel fuel s2) as [r s3] eqn:R2. simpl in *.
      assert (G2 : failbit s2 = false).
      { destruct (failbit s2); [|reflexivity]. rewrite K in Hgood; [discriminate | reflexivity]. }
      constructor; [apply IH1; [lia | exact G2] | apply IH2; [lia | exact Hgood]].
  - simpl in Hgood. apply get_none_failed in E1. congruence.
Qed.

Lemma skip_newline_failbit : forall s, failbit (skip_newline s) = failbit s.
Proof.
  intros [b f]. unfold skip_newline, peek, get. simpl.
  destruct f; [reflexivity|]. destruct b as [|c rest]; [reflexivity|].
  simpl. destruct (c =? newline); reflexivity.
Qed.

Lemma get_some_good : forall s c s', get s = (Some c, s') -> failbit s = false.
Proof.
  intros [b f] c s'. unfold get. simpl. destruct f; [discriminate | reflexivity].
Qed.

Lemma read_header_done : forall file h,
    read_header file = Done h ->
    h_root h = fst (readTree (open file)) /\
    failbit (snd (readTree (open file))) = false /\
    failbit (h_payload h) = false.
Proof.
  intros file h. unfold read_header.
  destruct (readTree (open file)) as [tree s1]. simpl.
  destruct tree as [|c f l r]; [discriminate|].
  destruct (get (skip_newline s1)) as [[e|] s3] eqn:E; [|discriminate].
  intros H. inversion H; subst. simpl.
  pose proof (get_some_good _ _ _ E) as G. rewrite skip_newline_failbit in G.
  split; [reflexivity|]. split; [exact G|].
  apply get_shorter in E. tauto.
Qed.

(** X14 (no decoding with a partly read tree): whenever [decompress]
    gets past the tree and the pad-count byte, the tree it decodes with
    is complete: every node has both children or none. *)
Theorem X14_header_tree_is_complete :
  forall (file : list ascii) (h : header),
    read_header file = Done h -> full (h_root h).
Proof.
  intros file h H.
  destruct (read_header_done file h H) as [-> [G _]].
  unfold readTree in *. apply readTree_fuel_good_full; [simpl; lia | exact G].
Qed.

Lemma X14_header_tree_is_complete_witness :
  read_header (file_of "01a1b" ++ [newline; "006"; "@"]) =
    Done {| h_root := Node nul 0 (new_Node "a" 0) (new_Node "b" 0);
            h_extraBits := 6;
            h_payload := open ["@"] |} /\
  full (Node nul 0 (new_Node "a" 0) (new_Node "b" 0)).
Proof.
  assert (H : read_header (file_of "01a1b" ++ [newline; "006"; "@"]) =
              Done {| h_root := Node nul 0 (new_Node "a" 0) (new_Node "b" 0);
                      h_extraBits := 6;
                      h_payload := open ["@"] |}) by reflexivity.
  split; [exact H|].
  exact (X14_header_tree_is_complete _ _ H).
Defined.

Lemma readTree_null : forall file,
    fst (readTree (open file)) = nullptr <-> file = [] \/ file = ["1"].
Proof.
  intros file. unfold readTree. simpl.
  destruct file as [|bit rest]; [simpl; tauto|].
  unfold get at 1. cbn [open failbit buf].
  destruct (bit =? "1") eqn:E.
  - apply Ascii.eqb_eq in E. subst bit.
    destruct rest as [|c rest]; simpl.
    + split; [auto | reflexivity].
    + split; [discriminate|]. intros [H|H]; discriminate.
  - apply Ascii.eqb_neq in E.
    destruct (readTree_fuel (length (bit :: rest)) {| buf := rest; failbit := false |})
      as [l s2].
    destruct (readTree_fuel (length (bit :: rest)) s2) as [r s3]. simpl.
    split; [discriminate|]. intros [H|H]; [discriminate|]. inversion H. congruence.
Qed.

(** X15 (the tree-read error): [decompress] ends on "Failed to read
    Huffman tree from file" for exactly two files: the empty file and
    the file that holds the single character '1'. *)
Theorem X15_tree_error_only_for_two_files :
  forall file : list ascii,
    decompress file = Failed ErrTreeRead <-> file = [] \/ file = ["1"].
Proof.
  intros file. rewrite <- readTree_null.
  unfold decompress, read_header.
  destruct (readTree (open file)) as [tree s1]. simpl.
  destruct tree as [|c f l r]; [tauto|].
  split; [|discriminate].
  destruct (get (skip_newline s1)) as [[e|] s3]; [|discriminate].
  intros H. exfalso. revert H. apply walk_not_failed.
Qed.

Lemma walk_skip : forall root cur bit rest,
    (bit =? "0") || (bit =? "1") = false ->
    walk root cur (bit :: rest) = walk root cur rest.
Proof. intros root cur bit rest H. simpl. rewrite H. reflexivity. Qed.

Lemma is_bit_test : forall bit, (bit =? "0") || (bit =? "1") = true -> is_bit bit.
Proof.
  intros bit H. apply orb_true_iff in H.
  destruct H as [H|H]; apply Ascii.eqb_eq in H; [left | right]; exact H.
Qed.

Lemma full_inner_children : forall k f l r,
    full (Node k f l r) -> is_leaf (Node k f l r) = false -> full l /\ full r.
Proof.
  intros k f l r H E. inversion H; subst; [discriminate | auto].
Qed.

(** With a complete tree whose root has children, the decoding loop
    returns normally on every bit string. *)
Lemma walk_full_done : forall root,
    full root -> is_leaf root = false ->
    forall bitString cur,
      full cur -> is_leaf cur = false ->
      exists out, walk root cur bitString = Done out.
Proof.
  intros root Hroot Iroot.
  induction bitString as [|bit rest IH]; intros cur Hcur Icur; [exists []; reflexivity|].
  destruct ((bit =? "0") || (bit =? "1")) eqn:E.
  - apply is_bit_test in E.
    destruct cur as [|k f l r]; [inversion Hcur|].
    destruct (full_inner_children _ _ _ _ Hcur Icur) as [Fl Fr].
    rewrite walk_step by exact E. cbv zeta.
    assert (Fn : full (if bit =? "0" then l else r)) by (destruct (bit =? "0"); assumption).
    destruct (if bit =? "0" then l else r) as [|c g a b] eqn:En; [inversion Fn|].
    destruct (is_leaf (Node c g a b)) eqn:El.
    + destruct (IH root Hroot Iroot) as [out Ho]. rewrite Ho.
      exists (c :: out). reflexivity.
    + apply IH; assumption.
  - rewrite walk_skip by exact E. apply IH; assumption.
Qed.

Lemma bit_chars_are_bits : forall l : list bool, Forall is_bit (map bit_char l).
Proof.
  induction l as [|b l IH]; simpl; constructor; [|exact IH].
  destruct b; [right | left]; reflexivity.
Qed.

Lemma unpacked_bits : forall payload, Forall is_bit (flat_map bitset_to_string payload).
Proof.
  induction payload as [|c payload IH]; simpl; [constructor|].
  apply Forall_app. split; [|exact IH].
  destruct c as [b0 b1 b2 b3 b4 b5 b6 b7]. apply bit_chars_are_bits.
Qed.

Lemma read_bits_are_bits : forall s, Forall is_bit (read_bits s).
Proof.
  intros s. unfold read_bits. destruct (failbit s); [constructor | apply unpacked_bits].
Qed.

Lemma drop_padding_bits : forall extraBits bitString,
    Forall is_bit bitString -> Forall is_bit (drop_padding extraBits bitString).
Proof.
  intros extraBits bitString H.
  destruct (drop_padding_firstn extraBits bitString) as [m [_ ->]].
  rewrite <- (firstn_skipn m bitString) in H. apply Forall_app in H. tauto.
Qed.

(** X16 (when decompress does not return): once the tree and the
    pad-count byte are read, [decompress] dereferences a null pointer
    exactly when the tree is a single leaf and at least one bit is left
    to decode after the padding is dropped; in every other case it
    returns normally with an output.  A single leaf is what [compress]
    writes for an input with one distinct byte value. *)
Theorem X16_null_dereference_only_with_single_leaf :
  forall (file : list ascii) (h : header),
    read_header file = Done h ->
    let bits := drop_padding (h_extraBits h) (read_bits (h_payload h)) in
    (decompress file = Crash <-> is_leaf (h_root h) = true /\ bits <> []) /\
    (decompress file <> Crash -> exists out, decompress file = Done out).
Proof.
  intros file h Hh bits.
  assert (Hfull : full (h_root h)).
  { destruct (read_header_done file h Hh) as [-> [G _]].
    unfold readTree in *. apply readTree_fuel_good_full; [simpl; lia | exact G]. }
  assert (Hbits : Forall is_bit bits)
    by (apply drop_padding_bits, read_bits_are_bits).
  assert (E : decompress file = walk (h_root h) (h_root h) bits)
    by (unfold decompress; rewrite Hh; reflexivity).
  rewrite E. clear E.
  destruct (is_leaf (h_root h)) eqn:L.
  - destruct (h_root h) as [|c f [|] [|]]; try discriminate.
    destruct bits as [|bit rest].
    + simpl. split; [split; [intros H; discriminate | intros [_ H]; congruence]|].
      intros _. exists []. reflexivity.
    + inversion Hbits as [|? ? Hb _]; subst.
      rewrite walk_step by exact Hb. cbv zeta.
      replace (if bit =? "0" then nullptr else nullptr) with nullptr
        by (destruct (bit =? "0"); reflexivity).
      split; [split; [intros _; split; [reflexivity | discriminate] | reflexivity]|].
      intros H. congruence.
  - destruct (walk_full_done _ Hfull L bits _ Hfull L) as [out Ho].
    rewrite Ho. split; [split; [discriminate | intros [H _]; discriminate]|].
    intros _. exists out. reflexivity.
Qed.

Lemma X16_null_dereference_only_with_single_leaf_witness :
  read_header (file_of "1a" ++ [newline; nul; nul]) =
    Done {| h_root := new_Node "a" 0; h_extraBits := 0; h_payload := open [nul] |} /\
  decompress (file_of "1a" ++ [newline; nul; nul]) = Crash.
Proof.
  assert (H : read_header (file_of "1a" ++ [newline; nul; nul]) =
              Done {| h_root := new_Node "a" 0; h_extraBits := 0;
                      h_payload := open [nul] |}) by reflexivity.
  split; [exact H|].
  apply (proj1 (X16_null_dereference_only_with_single_leaf _ _ H)).
  split; [reflexivity | discriminate].
Defined.

Lemma put_done : forall c o out,
    put c o = Done out -> exists out', o = Done out' /\ out = c :: out'.
Proof.
  intros c [o'|e|] out H; simpl in H; inversion H. eauto.
Qed.

Lemma walk_output : forall root bitString cur out,
    (forall c, In c (leaves cur) -> In c (leaves root)) ->
    walk root cur bitString = Done out ->
    Forall (fun c => In c (leaves root)) out /\
    (length out <= length bitString)%nat.
Proof.
  intros root. induction bitString as [|bit rest IH]; intros cur out Hsub H.
  - simpl in H. inversion H. split; [constructor | simpl; lia].
  - destruct ((bit =? "0") || (bit =? "1")) eqn:E.
    + apply is_bit_test in E.
      destruct cur as [|k f l r]; [simpl in H; destruct E as [-> | ->]; discriminate|].
      rewrite walk_step in H by exact E. cbv zeta in H.
      assert (Hn : forall c, In c (leaves (if bit =? "0" then l else r)) ->
                             In c (leaves root)).
      { intros c Hc. apply Hsub.
        destruct (is_leaf (Node k f l r)) eqn:Lf.
        - destruct l; [|discriminate]. destruct r; [|discriminate].
          destruct (bit =? "0"); destruct Hc.
        - rewrite leaves_inner by exact Lf. apply in_or_app.
          destruct (bit =? "0"); auto. }
      destruct (if bit =? "0" then l else r) as [|c g a b] eqn:En; [discriminate|].
      destruct (is_leaf (Node c g a b)) eqn:El.
      * apply put_done in H. destruct H as [out' [Ho ->]].
        destruct (IH root out' (fun c H => H) Ho) as [F Len].
        split; [|simpl; lia]. constructor; [|exact F].
        apply Hn. destruct a; [|discriminate]. destruct b; [|discriminate]. left. reflexivity.
      * destruct (IH _ out Hn H) as [F Len]. split; [exact F | simpl; lia].
    + rewrite walk_skip in H by exact E.
      destruct (IH cur out Hsub H) as [F Len]. split; [exact F | simpl; lia].
Qed.

Lemma drop_padding_length : forall extraBits bitString,
    (length (drop_padding extraBits bitString) <= length bitString)%nat.
Proof.
  intros extraBits bitString.
  destruct (drop_padding_firstn extraBits bitString) as [m [Hm ->]].
  rewrite length_firstn. lia.
Qed.

(** X17 (what the output can hold): when [decompress] returns an
    output, every byte of it is a symbol of a leaf of the tree read
    from the file, and the output has at most one byte for each bit of
    the payload, hence at most eight times the number of payload
    bytes. *)
Theorem X17_output_bytes_come_from_the_tree :
  forall (file out : list ascii) (h : header),
    read_header file = Done h ->
    decompress file = Done out ->
    Forall (fun c => In c (leaves (h_root h))) out /\
    (length out <= 8 * length (buf (h_payload h)))%nat.
Proof.
  intros file out h Hh Hd.
  unfold decompress in Hd. rewrite Hh in Hd.
  destruct (walk_output _ _ _ _ (fun c H => H) Hd) as [F Len].
  split; [exact F|].
  pose proof (drop_padding_length (h_extraBits h) (read_bits (h_payload h))) as D.
  assert (R : (length (read_bits (h_payload h)) <= 8 * length (buf (h_payload h)))%nat).
  { unfold read_bits. destruct (failbit (h_payload h)); [simpl; lia|].
    rewrite length_flat_map.
    induction (buf (h_payload h)) as [|c l IHl]; simpl; [lia|].
    rewrite bitset_to_string_length. lia. }
  lia.
Qed.

Lemma X17_output_bytes_come_from_the_tree_witness :
  read_header (file_of "01a1b" ++ [newline; "006"; "@"]) =
    Done {| h_root := Node nul 0 (new_Node "a" 0) (new_Node "b" 0);
            h_extraBits := 6;
            h_payload := open ["@"] |} /\
  decompress (file_of "01a1b" ++ [newline; "006"; "@"]) = Done (file_of "ab") /\
  (length (file_of "ab") <= 8 * 1)%nat.
Proof.
  assert (H : read_header (file_of "01a1b" ++ [newline; "006"; "@"]) =
              Done {| h_root := Node nul 0 (new_Node "a" 0) (new_Node "b" 0);
                      h_extraBits := 6;
                      h_payload := open ["@"] |}) by reflexivity.
  assert (D : decompress (file_of "01a1b" ++ [newline; "006"; "@"]) = Done (file_of "ab"))
    by reflexivity.
  split; [exact H|]. split; [exact D|].
  exact (proj2 (X17_output_bytes_come_from_the_tree _ _ _ H D)).
Defined.

(** X18 (the newline is optional, the pad-count byte is not): after a
    complete tree, [decompress] ends on the end-of-file error when the
    file stops there or holds only the newline; and when the byte after
    the tree is not a newline it is taken as the pad count, so that the
    file decodes as the same file with the newline put in. *)
Theorem X18_newline_optional_pad_count_required :
  forall (tree : NodePtr) (e : ascii) (payload : list ascii),
    full tree ->
    decompress (writeTree tree) = Failed ErrUnexpectedEof /\
    decompress (writeTree tree ++ [newline]) = Failed ErrUnexpectedEof /\
    (e <> newline ->
     decompress (writeTree tree ++ e :: payload) =
     decompress (writeTree tree ++ newline :: e :: payload)).
Proof.
  intros tree e payload Hf.
  pose proof (full_not_null _ (reread_full _ Hf)) as Hnn.
  assert (R : forall rest, read_header (writeTree tree ++ rest) =
                match get (skip_newline (open rest)) with
                | (None, _) => Failed ErrUnexpectedEof
                | (Some e', s3) =>
                    Done {| h_root := reread tree;
                            h_extraBits := Z.of_N (N_of_ascii e');
                            h_payload := s3 |}
                end).
  { intros rest. unfold read_header. rewrite readTree_writeTree by exact Hf.
    destruct (reread tree); [congruence | reflexivity]. }
  split; [|split].
  - unfold decompress. rewrite <- (app_nil_r (writeTree tree)), R. reflexivity.
  - unfold decompress. rewrite R. reflexivity.
  - intros He. unfold decompress. rewrite !R, !skip_newline_cases.
    apply Ascii.eqb_neq in He. rewrite He.
    change (newline =? newline) with true. reflexivity.
Qed.

Lemma X18_newline_optional_pad_count_required_witness :
  full (Node nul 2 (new_Node "a" 1) (new_Node "b" 1)) /\
  decompress (file_of "01a1b") = Failed ErrUnexpectedEof /\
  decompress (file_of "01a1b" ++ ["006"; "@"]) =
  decompress (file_of "01a1b" ++ [newline; "006"; "@"]).
Proof.
  assert (H : full (Node nul 2 (new_Node "a" 1) (new_Node "b" 1)))
    by (repeat constructor).
  split; [exact H|].
  destruct (X18_newline_optional_pad_count_required _ "006" ["@"] H) as [E1 [_ E3]].
  split; [exact E1|]. apply E3. discriminate.
Defined.

(** ** The size of the payload *)

Lemma sum_counted_absent : forall f a text keys,
    ~ In a keys -> sum_counted f (a :: text) keys = sum_counted f text keys.
Proof.
  intros f a text. induction keys as [|k keys IH]; intros H; [reflexivity|].
  unfold sum_counted in *. cbn [fold_right].
  rewrite IH by (intros Hin; apply H; right; exact Hin).
  rewrite count_occ_cons_neq by (intros ->; apply H; left; reflexivity).
  reflexivity.
Qed.

Lemma sum_counted_present : forall f a text keys,
    NoDup keys -> In a keys ->
    sum_counted f (a :: text) keys = f a + sum_counted f text keys.
Proof.
  intros f a text. induction keys as [|k keys IH]; intros Hnd Hin; [destruct Hin|].
  inversion Hnd as [|? ? Hnotin Hnd']; subst.
  unfold sum_counted in *. cbn [fold_right].
  destruct (ascii_dec a k) as [->|Hne].
  - pose proof (sum_counted_absent f k text keys Hnotin) as A.
    unfold sum_counted in A. rewrite A.
    rewrite count_occ_cons_eq by reflexivity. lia.
  - destruct Hin as [Hin|Hin]; [congruence|].
    rewrite (IH Hnd' Hin). rewrite count_occ_cons_neq by exact Hne. lia.
Qed.

Lemma sum_counted_nil : forall f keys, sum_counted f [] keys = 0.
Proof.
  intros f. induction keys as [|k keys IH]; [reflexivity|].
  unfold sum_counted in *. simpl in *. exact IH.
Qed.

Lemma sum_over_counted : forall f text keys,
    NoDup keys -> (forall x, In x text -> In x keys) ->
    sum_over f text = sum_counted f text keys.
Proof.
  intros f. induction text as [|a text IH]; intros keys Hnd Hin.
  - rewrite sum_counted_nil. reflexivity.
  - rewrite sum_counted_present; [|exact Hnd | apply Hin; left; reflexivity].
    unfold sum_over in *. cbn [fold_right].
    rewrite (IH keys Hnd); [reflexivity|].
    intros x Hx. apply Hin. right. exact Hx.
Qed.

Lemma encode_length_sum : forall table input,
    Z.of_nat (length (encode table input)) =
    sum_over (fun c => Z.of_nat (length (map_at [] c table))) input.
Proof.
  intros table. induction input as [|c input IH]; [reflexivity|].
  unfold sum_over in *. cbn [encode fold_right].
  rewrite length_app, Nat2Z.inj_add, IH. reflexivity.
Qed.

Lemma weighted_length_counted : forall input table (freqMap : list (ascii * Z)),
    Forall (fun pair => snd pair = Z.of_nat (count_occ ascii_dec input (fst pair))) freqMap ->
    weighted_length freqMap table =
    sum_counted (fun c => Z.of_nat (length (map_at [] c table))) input (map fst freqMap).
Proof.
  intros input table. induction freqMap as [|[c n] freqMap IH]; intros H; [reflexivity|].
  inversion H as [|? ? Hn Hrest]; subst. simpl in Hn.
  unfold weighted_length, sum_counted in *. cbn [fold_right map fst snd].
  rewrite (IH Hrest), Hn. reflexivity.
Qed.

(** X19 (size of the payload in bits): for an input of fewer than 2^31
    bytes, the bit string that [compress] packs has, before padding,
    as many bits as the counts of the frequency map weighted by the
    lengths of the codes: the sum, over the distinct bytes, of the
    number of occurrences times the code length. *)
Theorem X19_encoded_length_is_weighted_code_length :
  forall (UM : UnorderedMapOrder) (PQ : PriorityQueue) (input : list ascii),
    Z.of_nat (length input) < 2 ^ 31 ->
    let table := huffmanCode (compress_object input) in
    Z.of_nat (length (encode table input)) =
    weighted_length (count_freq input) table.
Proof.
  intros UM PQ input Hlen table.
  destruct (count_freq_keys input) as [Hnd Hkeys].
  rewrite encode_length_sum.
  rewrite (weighted_length_counted input).
  - apply sum_over_counted; [exact Hnd|]. intros x Hx. apply Hkeys. exact Hx.
  - apply Forall_forall. intros [c n] Hin. simpl.
    apply (count_freq_exact input c n Hlen Hin).
Qed.

Lemma X19_encoded_length_is_weighted_code_length_witness :
  Z.of_nat (length (file_of "abracadabra")) < 2 ^ 31 /\
  Z.of_nat (length (encode (huffmanCode (compress_object (file_of "abracadabra")))
                           (file_of "abracadabra"))) = 23 /\
  weighted_length (count_freq (file_of "abracadabra"))
                  (huffmanCode (compress_object (file_of "abracadabra"))) = 23.
Proof.
  assert (H : Z.of_nat (length (file_of "abracadabra")) < 2 ^ 31) by reflexivity.
  split; [exact H|]. split; [reflexivity|].
  rewrite <- (X19_encoded_length_is_weighted_code_length insertion_order list_queue _ H).
  reflexivity.
Defined.
